(** * Rudimentary_C: a hand-written [strdup] and four [qsort] demonstrations

  The development embeds the five C translation units of the repository:

  - [StrdupFunction.c]: [my_strdup], over an explicit block memory with a
    bounded allocator and an event trace;
  - [AscendingOrder.c] / [DescendingOrder.c] for integers and characters:
    the four comparators and the four [main] programs, over a [qsort]
    that is only known through the contract of the C library.

  C [int] is a 32-bit two's complement integer whose arithmetic wraps,
  [size_t] is 64 bits wide, plain [char] is signed, and a [char] is held
  as the integer it promotes to. *)

From Stdlib Require Import ZArith Lia String Ascii DecimalString.
From stdpp Require Import base tactics option numbers list sorting.

Local Open Scope Z_scope.

(** ** Machine integers *)

Module CInt.

Definition INT_MIN : Z := - 2 ^ 31.
Definition INT_MAX : Z := 2 ^ 31 - 1.
Definition SIZE_MAX : Z := 2 ^ 64 - 1.

(** The value range of [int]. *)
Definition in_int (z : Z) : Prop := INT_MIN ≤ z ≤ INT_MAX.

(** Reduction of a mathematical integer to the [int] it is stored as. *)
Definition wrap_int (z : Z) : Z := (z + 2 ^ 31) mod 2 ^ 32 - 2 ^ 31.

(** [a + b] and [a - b] on [int] operands. *)
Definition int_add (a b : Z) : Z := wrap_int (a + b).
Definition int_sub (a b : Z) : Z := wrap_int (a - b).

(** Conversion of an [int] argument to the [size_t] parameter of
    [malloc]. *)
Definition to_size_t (z : Z) : Z := z mod 2 ^ 64.

End CInt.

(** ** Memory, allocator and the effects of a C function *)

Module Mem.

(** A pointer is null or designates a byte of a block. *)
Inductive ptr : Type :=
| NULL : ptr
| Ptr (b : nat) (ofs : Z) : ptr.

Definition is_null (p : ptr) : bool :=
  match p with NULL => true | Ptr _ _ => false end.

(** A byte of storage: [None] while it is indeterminate (fresh from
    [malloc]), [Some c] once it holds the [char] value [c]. *)
Abbreviation cell := (option Z) (only parsing).

(** What a function does to memory, in program order. *)
Inductive event : Type :=
| EvLoad (b : nat) (ofs : Z)
| EvStore (b : nat) (ofs : Z) (c : Z)
| EvAlloc (size : Z) (res : ptr).

(** The state: the blocks (a block is named by its index), the number of
    bytes the allocator can still hand out, and the events so far. *)
Record mem : Type := Mem {
  blocks : list (list cell);
  avail : Z;
  trace : list event
}.

(** The result of running a computation: it returns, it has undefined
    behaviour (a read or write outside a block, a read of an
    indeterminate byte, a null dereference) in the state it had reached,
    or the loop budget of the model is spent. *)
Inductive outcome (A : Type) : Type :=
| Done (a : A) (m : mem)
| Undefined (m : mem)
| OutOfFuel.
Arguments Done {A} a m.
Arguments Undefined {A} m.
Arguments OutOfFuel {A}.

Definition M (A : Type) : Type := mem → outcome A.

#[export] Instance M_ret : MRet M := λ A a m, Done a m.
#[export] Instance M_bind : MBind M := λ A B f c m,
  match c m with
  | Done a m' => f a m'
  | Undefined m' => Undefined m'
  | OutOfFuel => OutOfFuel
  end.

Definition out_of_fuel {A} : M A := λ _, OutOfFuel.

Definition log (e : event) (m : mem) : mem :=
  {| blocks := blocks m; avail := avail m; trace := trace m ++ [e] |}.

(** The cell at offset [ofs] of block [b], if there is one. *)
Definition cell_at (m : mem) (b : nat) (ofs : Z) : option cell :=
  if decide (0 ≤ ofs) then blk ← blocks m !! b; blk !! Z.to_nat ofs
  else None.

(** [p[i]] as an lvalue. *)
Definition index (p : ptr) (i : Z) : ptr :=
  match p with
  | NULL => NULL
  | Ptr b ofs => Ptr b (ofs + i)
  end.

(** Reading [*p]. *)
Definition load (p : ptr) : M Z := λ m,
  match p with
  | NULL => Undefined m
  | Ptr b ofs =>
      match cell_at m b ofs with
      | Some (Some c) => Done c (log (EvLoad b ofs) m)
      | _ => Undefined m
      end
  end.

(** Writing [*p = c]. *)
Definition store (p : ptr) (c : Z) : M unit := λ m,
  match p with
  | NULL => Undefined m
  | Ptr b ofs =>
      match cell_at m b ofs, blocks m !! b with
      | Some _, Some blk =>
          Done tt (log (EvStore b ofs c)
                     {| blocks := <[b := <[Z.to_nat ofs := Some c]> blk]> (blocks m);
                        avail := avail m;
                        trace := trace m |})
      | _, _ => Undefined m
      end
  end.

(** [malloc(size)]: a fresh block of [size] indeterminate bytes when the
    allocator still has that many, the null pointer otherwise. *)
Definition malloc (size : Z) : M ptr := λ m,
  if decide (size ≤ avail m) then
    let p := Ptr (length (blocks m)) 0 in
    Done p (log (EvAlloc size p)
              {| blocks := blocks m ++ [replicate (Z.to_nat size) None];
                 avail := avail m - size;
                 trace := trace m |})
  else Done NULL (log (EvAlloc size NULL) m).

(** The returned value of an outcome. *)
Definition result {A} (o : outcome A) : option A :=
  match o with Done a _ => Some a | _ => None end.

(** The C string a pointer designates: the bytes before the first
    ['\0'], if the block holds a terminator after the pointer and no
    indeterminate byte before it. *)
Fixpoint scan_cells (cells : list cell) : option (list Z) :=
  match cells with
  | Some c :: rest =>
      if decide (c = 0) then Some [] else (c ::.) <$> scan_cells rest
  | _ => None
  end.

Definition string_at (m : mem) (p : ptr) : option (list Z) :=
  match p with
  | NULL => None
  | Ptr b ofs =>
      if decide (0 ≤ ofs) then
        blk ← blocks m !! b; scan_cells (drop (Z.to_nat ofs) blk)
      else None
  end.

End Mem.

(** ** StrdupFunction.c *)

Module StrdupFunction.
Import CInt Mem.

(** [while (s[length] != '\0') length++;] *)
Fixpoint strlen_loop (fuel : nat) (s : ptr) (length : Z) : M Z :=
  match fuel with
  | O => out_of_fuel
  | S fuel' =>
      c ← load (index s length);
      if decide (c ≠ 0) then strlen_loop fuel' s (int_add length 1)
      else mret length
  end.

(** [for (int i = 0; i <= length; i++) copy[i] = s[i];] entered with the
    current value of [i]. *)
Fixpoint copy_loop (fuel : nat) (s copy : ptr) (length i : Z) : M unit :=
  match fuel with
  | O => out_of_fuel
  | S fuel' =>
      if decide (i ≤ length) then
        c ← load (index s i);
        _ ← store (index copy i) c;
        copy_loop fuel' s copy length (int_add i 1)
      else mret tt
  end.

Definition my_strdup (fuel : nat) (s : ptr) : M ptr :=
  if is_null s then mret NULL
  else
    length ← strlen_loop fuel s 0;
    copy ← malloc (to_size_t (int_add length 1));
    if is_null copy then mret NULL
    else
      _ ← copy_loop fuel s copy length 0;
      mret copy.

End StrdupFunction.

(** ** Vocabulary for the behaviour of [my_strdup] *)

Module StrdupSpec.
Import CInt Mem.

(** The state after the events [evs] were appended to the trace. *)
Definition logs (evs : list event) (m : mem) : mem :=
  {| blocks := blocks m; avail := avail m; trace := trace m ++ evs |}.

(** Block [b] holds the bytes [content] from offset [ofs] on. *)
Definition holds (m : mem) (b : nat) (ofs : Z) (content : list Z) : Prop :=
  ∀ j c, content !! j = Some c →
    cell_at m b (ofs + Z.of_nat j) = Some (Some c).

(** The reads of a length scan that visits [len] bytes from index [k] on,
    in increasing address order. *)
Definition scan_events (b : nat) (ofs : Z) (k len : nat) : list event :=
  (λ i : nat, EvLoad b (ofs + Z.of_nat i)) <$> seq k len.

(** The events of the copy loop from index [i] on, [cs] being the bytes
    still to copy: a read of the source followed by a write of the copy,
    byte after byte. *)
Fixpoint copy_events (b : nat) (ofs : Z) (nb : nat) (i : Z) (cs : list Z)
    : list event :=
  match cs with
  | [] => []
  | c :: cs' =>
      EvLoad b (ofs + i) :: EvStore nb i c :: copy_events b ofs nb (i + 1) cs'
  end.

(** The block the copy loop has filled up to index [i]. *)
Definition partial_copy (content : list Z) (i : nat) : list cell :=
  (Some <$> take i content) ++ replicate (length content - i) None.

(** An event of a call entered in state [m] with a source string in block
    [src] that respects the source: a read of the source block, an
    allocation, or a write into a block that did not exist at entry. *)
Definition respects_source (m : mem) (src : nat) (e : event) : Prop :=
  match e with
  | EvLoad b' _ => b' = src
  | EvStore b' _ _ => (length (blocks m) ≤ b')%nat
  | EvAlloc _ _ => True
  end.

(** The state [my_strdup] leaves when it has copied the string [bytes]
    found at offset [ofs] of block [b]. *)
Definition copied_state (m : mem) (b : nat) (ofs : Z) (bytes : list Z) : mem :=
  let nb := length (blocks m) in
  let size := Z.of_nat (length bytes) + 1 in
  {| blocks := blocks m ++ [Some <$> (bytes ++ [0])];
     avail := avail m - size;
     trace := trace m
              ++ scan_events b ofs 0 (S (length bytes))
              ++ EvAlloc size (Ptr nb 0)
                 :: copy_events b ofs nb 0 (bytes ++ [0]) |}.

(** The state [my_strdup] leaves when the allocation of [size] bytes for
    a copy of that string failed. *)
Definition refused_state (m : mem) (b : nat) (ofs : Z) (bytes : list Z)
    (size : Z) : mem :=
  logs (scan_events b ofs 0 (S (length bytes)) ++ [EvAlloc size NULL]) m.

End StrdupSpec.

(** ** Standard output *)

Module Stdio.

Definition newline : string := String "010"%char EmptyString.

(** The text [printf("%d ", x)] appends to standard output. *)
Definition printf_d (x : Z) (out : string) : string :=
  String.append out (String.append (NilZero.string_of_int (Z.to_int x)) " ").

(** The text [printf("%c ", c)] appends: the argument is converted to
    [unsigned char] and written as that one byte. *)
Definition printf_c (c : Z) (out : string) : string :=
  String.append out (String (ascii_of_N (Z.to_N (c mod 256))) " ").

(** The text [printf("\n")] appends. *)
Definition printf_nl (out : string) : string := String.append out newline.

(** [for (int i = 0; i < n; i++) printf(fmt, arr[i]);] The counter stays
    below the [int] [n], so its increment never wraps. An index outside
    the array makes the read undefined ([None]). *)
Definition print_loop (printf : Z → string → string)
    (arr : list Z) (n : Z) (out : string) : option string :=
  foldl (λ acc i, out ← acc; x ← arr !! Z.to_nat i; Some (printf x out))
        (Some out) (seqZ 0 n).

End Stdio.

(** ** The library function [qsort] *)

Module Qsort.

(** An array of [int] or of [char] is the list of its elements; [qsort]
    receives the array, the number [nmemb] of leading elements to sort and
    the comparison function, and leaves the array rearranged. The element
    width is carried by the list representation. *)
Definition qsort_t : Type := list Z → Z → (Z → Z → Z) → list Z.

(** The requirement of the C standard on the comparison function: its
    results on the elements of the array are consistent with one total
    ordering. *)
Definition total_order_on (compar : Z → Z → Z) (l : list Z) : Prop :=
  ∀ x y z, x ∈ l → y ∈ l → z ∈ l →
    Z.sgn (compar x y) = - Z.sgn (compar y x) ∧
    (compar x y ≤ 0 → compar y z ≤ 0 → compar x z ≤ 0).

(** Ascending order according to [compar]: no element compares greater
    than its successor. *)
Definition sorted_by (compar : Z → Z → Z) (l : list Z) : Prop :=
  Sorted (λ x y, compar x y ≤ 0) l.

(** What the C standard promises of [qsort]: the first [nmemb] elements
    are rearranged into ascending order according to [compar], the rest of
    the array is untouched. Nothing is promised of the algorithm, nor of
    the relative order of elements that compare equal. *)
Class QsortSpec (qsort : qsort_t) : Prop := qsort_spec :
  ∀ base nmemb compar,
    0 ≤ nmemb ≤ Z.of_nat (length base) →
    total_order_on compar (take (Z.to_nat nmemb) base) →
    ∃ sorted,
      qsort base nmemb compar = sorted ++ drop (Z.to_nat nmemb) base ∧
      sorted ≡ₚ take (Z.to_nat nmemb) base ∧
      sorted_by compar sorted.

(** One function that meets the contract, by straight insertion. *)
Fixpoint insert_by (compar : Z → Z → Z) (x : Z) (l : list Z) : list Z :=
  match l with
  | [] => [x]
  | y :: l' =>
      if decide (compar x y ≤ 0) then x :: y :: l'
      else y :: insert_by compar x l'
  end.

Definition insertion_sort (compar : Z → Z → Z) (l : list Z) : list Z :=
  foldr (insert_by compar) [] l.

Definition reference_qsort : qsort_t := λ base nmemb compar,
  insertion_sort compar (take (Z.to_nat nmemb) base)
    ++ drop (Z.to_nat nmemb) base.

End Qsort.

(** ** Array objects *)

Module CArray.

Definition sizeof_int : Z := 4.
Definition sizeof_char : Z := 1.

(** [sizeof] of an array object whose elements are [elt] bytes wide. *)
Definition sizeof_array (elt : Z) (a : list Z) : Z := Z.of_nat (length a) * elt.

(** The value of a character constant, or of a character of a string
    literal: the byte itself up to 0x7f, and the byte less 256 above,
    since plain [char] is signed. *)
Definition char_of_ascii (a : ascii) : Z :=
  let byte := Z.of_N (N_of_ascii a) in
  if decide (byte < 128) then byte else byte - 256.

(** The array a string literal initialises: its characters, then the
    terminating ['\0']. *)
Definition string_literal (s : string) : list Z :=
  (char_of_ascii <$> list_ascii_of_string s) ++ [0].

End CArray.

(** ** f (Qsort function)/a) integers/AscendingOrder.c *)

Module IntegersAscending.
Import CInt CArray Stdio Qsort.

Definition cmp_int (a b : Z) : Z := int_sub a b.

Definition arr : list Z := [5; 2; 9; 1; 5; 6].
Definition n : Z := wrap_int (sizeof_array sizeof_int arr / sizeof_int).

(** The array after the call of [qsort]. *)
Definition sorted_arr (qsort : qsort_t) : list Z :=
  qsort arr (to_size_t n) cmp_int.

(** The text written and the exit status. *)
Definition main (qsort : qsort_t) : option (string * Z) :=
  let arr := sorted_arr qsort in
  out ← print_loop printf_d arr n "";
  Some (printf_nl out, 0).

End IntegersAscending.

(** ** f (Qsort function)/a) integers/DescendingOrder.c *)

Module IntegersDescending.
Import CInt CArray Stdio Qsort.

Definition cmp_int_desc (a b : Z) : Z := int_sub b a.

Definition arr : list Z := [5; 2; 9; 1; 5; 6].
Definition n : Z := wrap_int (sizeof_array sizeof_int arr / sizeof_int).

Definition sorted_arr (qsort : qsort_t) : list Z :=
  qsort arr (to_size_t n) cmp_int_desc.

Definition main (qsort : qsort_t) : option (string * Z) :=
  let arr := sorted_arr qsort in
  out ← print_loop printf_d arr n "";
  Some (printf_nl out, 0).

End IntegersDescending.

(** ** f (Qsort function)/b) charcters/AscendingOrder.c *)

Module CharactersAscending.
Import CInt CArray Stdio Qsort.

(** Both [char] operands are promoted to [int] before the subtraction. *)
Definition cmp_char_asc (a b : Z) : Z := int_sub a b.

Definition arr : list Z := string_literal "salam".
Definition n : Z := wrap_int (sizeof_array sizeof_char arr / sizeof_char).

Definition sorted_arr (qsort : qsort_t) : list Z :=
  qsort arr (to_size_t n) cmp_char_asc.

Definition main (qsort : qsort_t) : option (string * Z) :=
  let arr := sorted_arr qsort in
  out ← print_loop printf_c arr n "";
  Some (printf_nl out, 0).

End CharactersAscending.

(** ** f (Qsort function)/b) charcters/DescendingOrder.c *)

Module CharactersDescending.
Import CInt CArray Stdio Qsort.

Definition cmp_char_desc (a b : Z) : Z := int_sub b a.

Definition arr : list Z :=
  [char_of_ascii "z"; char_of_ascii "a"; char_of_ascii "q";
   char_of_ascii "m"; char_of_ascii "b"].
Definition n : Z := wrap_int (sizeof_array sizeof_char arr / sizeof_char).

Definition sorted_arr (qsort : qsort_t) : list Z :=
  qsort arr (to_size_t n) cmp_char_desc.

Definition main (qsort : qsort_t) : option (string * Z) :=
  let arr := sorted_arr qsort in
  out ← print_loop printf_c arr n "";
  Some (printf_nl out, 0).

End CharactersDescending.

(** ** Vocabulary for the demonstrations *)

Module DemoSpec.
Import CInt Stdio Qsort.

(** No element compares greater than its successor. *)
Definition adjacent_le (compar : Z → Z → Z) (l : list Z) : Prop :=
  ∀ i x y, l !! i = Some x → l !! S i = Some y → compar x y ≤ 0.

(** Values that, like the elements of the demonstration arrays, are not
    negative: the difference of two of them is an [int]. *)
Definition nonneg_int (z : Z) : Prop := 0 ≤ z ≤ INT_MAX.

(** Sorting the array a second time changes neither the array nor the
    text printed from it, and every arrangement of the values of [arr]
    that is in the order of [compar] is left as it is. *)
Definition resort_stable (qsort : qsort_t) (compar : Z → Z → Z)
    (printf : Z → string → string) (arr : list Z) (n : Z) : Prop :=
  let once := qsort arr (to_size_t n) compar in
  let twice := qsort once (to_size_t n) compar in
  (∀ l, l ≡ₚ arr → sorted_by compar l → qsort l (to_size_t n) compar = l) ∧
  twice = once ∧
  print_loop printf twice n "" = print_loop printf once n "".

End DemoSpec.

(** ** Sample states *)

Module Samples.
Import Mem.

(** The string ["hi"] in block 0, and an allocator with ten bytes left. *)
Definition hi_mem : mem :=
  {| blocks := [[Some 104; Some 105; Some 0]]; avail := 10; trace := [] |}.

(** The same string, and an allocator with two bytes left. *)
Definition hi_mem_short : mem :=
  {| blocks := [[Some 104; Some 105; Some 0]]; avail := 2; trace := [] |}.

End Samples.

(** ** Vocabulary for the cost and the domain of the functions *)

Module Accounting.
Import CInt Mem.

Definition is_load (e : event) : bool :=
  match e with EvLoad _ _ => true | _ => false end.
Definition is_store (e : event) : bool :=
  match e with EvStore _ _ _ => true | _ => false end.
Definition is_alloc (e : event) : bool :=
  match e with EvAlloc _ _ => true | _ => false end.

(** The number of events of one kind in a trace. *)
Fixpoint count_events (kind : event → bool) (evs : list event) : nat :=
  match evs with
  | [] => 0
  | e :: evs' => (if kind e then 1 else 0) + count_events kind evs'
  end.

(** The values a [char] can have, whether the type is signed or not. *)
Definition is_char (z : Z) : Prop := -128 ≤ z ≤ 255.


(** The difference of any two elements of the array is an [int]. *)
Definition differences_fit (l : list Z) : Prop :=
  ∀ x y, x ∈ l → y ∈ l → in_int (x - y).

End Accounting.

(** ** Further sample states *)

Module MoreSamples.
Import Mem.

(** The bytes ['h'], ['i'] in a block of two bytes: no terminator. *)
Definition unterminated_mem : mem :=
  {| blocks := [[Some 104; Some 105]]; avail := 10; trace := [] |}.

End MoreSamples.

(** * Proofs *)

(** ** Machine integers *)

Section cint_facts.
Import CInt.

Lemma wrap_int_id z : in_int z → wrap_int z = z.
Proof.
  unfold in_int, wrap_int, INT_MIN, INT_MAX. intros Hz.
  rewrite Z.mod_small by lia. lia.
Qed.

Lemma wrap_int_range z : in_int (wrap_int z).
Proof.
  unfold in_int, wrap_int, INT_MIN, INT_MAX.
  pose proof (Z.mod_pos_bound (z + 2 ^ 31) (2 ^ 32)). lia.
Qed.

Lemma wrap_int_high z : INT_MAX < z ≤ INT_MAX + 2 ^ 32 → wrap_int z = z - 2 ^ 32.
Proof.
  unfold wrap_int, INT_MIN, INT_MAX. intros Hz.
  replace (z + 2 ^ 31) with ((z - 2 ^ 32 + 2 ^ 31) + 1 * 2 ^ 32) by lia.
  rewrite Z.mod_add by lia. rewrite Z.mod_small by lia. lia.
Qed.

Lemma wrap_int_low z : INT_MIN - 2 ^ 32 ≤ z < INT_MIN → wrap_int z = z + 2 ^ 32.
Proof.
  unfold wrap_int, INT_MIN, INT_MAX. intros Hz.
  replace (z + 2 ^ 31) with ((z + 2 ^ 32 + 2 ^ 31) + (-1) * 2 ^ 32) by lia.
  rewrite Z.mod_add by lia. rewrite Z.mod_small by lia. lia.
Qed.

Lemma int_add_succ z : 0 ≤ z < INT_MAX → int_add z 1 = z + 1.
Proof.
  intros Hz. apply wrap_int_id. unfold in_int, INT_MIN, INT_MAX in *. lia.
Qed.

Lemma to_size_t_id z : 0 ≤ z ≤ SIZE_MAX → to_size_t z = z.
Proof.
  unfold to_size_t, SIZE_MAX. intros Hz. apply Z.mod_small. lia.
Qed.

End cint_facts.

(** ** Memory *)

Section mem_facts.
Import CInt Mem StrdupSpec.

Lemma cell_at_Some m b ofs blk :
  0 ≤ ofs → blocks m !! b = Some blk →
  cell_at m b ofs = blk !! Z.to_nat ofs.
Proof.
  intros Hofs Hb. unfold cell_at. rewrite decide_True by done.
  by rewrite Hb.
Qed.

Lemma holds_logs evs m b ofs content :
  holds m b ofs content → holds (logs evs m) b ofs content.
Proof. done. Qed.

Lemma holds_log e m b ofs content :
  holds m b ofs content → holds (log e m) b ofs content.
Proof. done. Qed.

Lemma scan_cells_layout cells bytes :
  scan_cells cells = Some bytes →
  Forall (λ c, c ≠ 0) bytes ∧
  ∃ rest, cells = (Some <$> (bytes ++ [0])) ++ rest.
Proof.
  revert bytes. induction cells as [|[c|] cells IH]; intros bytes; csimpl; try done.
  case_decide as Hc.
  - intros [= <-]. split; [constructor|]. exists cells. by subst.
  - destruct (scan_cells cells) as [bs|] eqn:Hs; simpl; [|done].
    intros [= <-]. destruct (IH bs eq_refl) as [Hnz [rest ->]].
    split; [by constructor|]. by exists rest.
Qed.

Lemma scan_cells_of_layout bytes rest :
  Forall (λ c, c ≠ 0) bytes →
  scan_cells ((Some <$> (bytes ++ [0])) ++ rest) = Some bytes.
Proof.
  induction 1 as [|c bytes Hc _ IH]; csimpl; [done|].
  rewrite decide_False by done. by rewrite IH.
Qed.

(** A pointer that designates a string lies in a block that holds the
    bytes of the string and its terminator. *)
Lemma string_at_holds m b ofs bytes :
  string_at m (Ptr b ofs) = Some bytes →
  0 ≤ ofs ∧ Forall (λ c, c ≠ 0) bytes ∧ holds m b ofs (bytes ++ [0]).
Proof.
  unfold string_at. case_decide as Hofs; [|done].
  destruct (blocks m !! b) as [blk|] eqn:Hb; simpl; [|done].
  intros Hs. apply scan_cells_layout in Hs as [Hnz [rest Hrest]].
  split_and!; [done..|].
  intros j c Hj. rewrite (cell_at_Some _ _ _ blk) by (done || lia).
  replace (Z.to_nat (ofs + Z.of_nat j)) with (Z.to_nat ofs + j)%nat by lia.
  rewrite <- lookup_drop, Hrest.
  rewrite lookup_app_l; [by rewrite list_lookup_fmap, Hj|].
  rewrite length_fmap. by eapply lookup_lt_Some.
Qed.

Lemma scan_cells_drop (blk : list cell) bytes : ∀ k,
  Forall (λ c, c ≠ 0) bytes →
  (∀ j c, (bytes ++ [0]) !! j = Some c → blk !! (k + j)%nat = Some (Some c)) →
  scan_cells (drop k blk) = Some bytes.
Proof.
  induction bytes as [|c bytes IH]; intros k Hnz Hl.
  - pose proof (Hl 0%nat 0 eq_refl) as H0. rewrite Nat.add_0_r in H0.
    by rewrite (drop_S _ _ _ H0).
  - pose proof (Hl 0%nat c eq_refl) as H0. rewrite Nat.add_0_r in H0.
    rewrite (drop_S _ _ _ H0). simpl. inversion_clear Hnz as [|?? Hc Hnz'].
    rewrite decide_False by done. rewrite IH; [done..|].
    intros j c' Hj. replace (S k + j)%nat with (k + S j)%nat by lia.
    by apply Hl.
Qed.

Lemma holds_string_at m b ofs bytes :
  0 ≤ ofs → Forall (λ c, c ≠ 0) bytes → holds m b ofs (bytes ++ [0]) →
  string_at m (Ptr b ofs) = Some bytes.
Proof.
  intros Hofs Hnz Hh. unfold string_at. rewrite decide_True by done.
  pose proof (Hh 0%nat) as H0.
  destruct (blocks m !! b) as [blk|] eqn:Hb; simpl.
  - apply scan_cells_drop; [done|]. intros j c Hj.
    specialize (Hh j c Hj). rewrite (cell_at_Some _ _ _ blk) in Hh by (done || lia).
    by replace (Z.to_nat (ofs + Z.of_nat j)) with (Z.to_nat ofs + j)%nat in Hh by lia.
  - destruct bytes as [|c bytes]; specialize (H0 _ eq_refl);
      unfold cell_at in H0; rewrite Hb in H0; by case_decide.
Qed.

End mem_facts.

(** ** The loops of [my_strdup] *)

Section strdup_facts.
Import CInt Mem StrdupFunction StrdupSpec.

Lemma bind_Done {A B} (c : M A) (f : A → M B) m a m' :
  c m = Done a m' → (c ≫= f) m = f a m'.
Proof. intros Hc. unfold mbind, M_bind. by rewrite Hc. Qed.

Lemma logs_log evs e m : logs evs (log e m) = logs (e :: evs) m.
Proof. unfold logs, log. simpl. by rewrite <- app_assoc. Qed.

Lemma load_holds m b ofs content j c :
  holds m b ofs content → content !! j = Some c →
  load (Ptr b (ofs + Z.of_nat j)) m
  = Done c (log (EvLoad b (ofs + Z.of_nat j)) m).
Proof. intros Hh Hj. unfold load. by rewrite (Hh j c Hj). Qed.

(** The scan entered at index [k] of a string stops at its terminator and
    has read every byte from [k] to the terminator once. *)
Lemma strlen_loop_spec b ofs bytes d : ∀ k fuel m,
  holds m b ofs (bytes ++ [0]) → Forall (λ c, c ≠ 0) bytes →
  (k + d = length bytes)%nat → Z.of_nat (length bytes) ≤ INT_MAX →
  (d < fuel)%nat →
  strlen_loop fuel (Ptr b ofs) (Z.of_nat k) m
  = Done (Z.of_nat (length bytes)) (logs (scan_events b ofs k (S d)) m).
Proof.
  induction d as [|d IH]; intros k [|fuel] m Hh Hnz Hk Hmax Hfuel; try lia.
  - assert (k = length bytes) as -> by lia. simpl.
    erewrite bind_Done; last first.
    { eapply load_holds; [done|]. apply list_lookup_middle. done. }
    by rewrite decide_False by (intros ?; done).
  - destruct (lookup_lt_is_Some_2 bytes k) as [c Hc]; [lia|].
    simpl. erewrite bind_Done; last first.
    { eapply load_holds; [done|]. by apply lookup_app_l_Some. }
    rewrite decide_True by (by eapply (proj1 (Forall_lookup _ _) Hnz)).
    rewrite int_add_succ by lia.
    replace (Z.of_nat k + 1) with (Z.of_nat (S k)) by lia.
    rewrite (IH (S k)); [|by apply holds_log|done|lia..].
    by rewrite logs_log.
Qed.

Lemma partial_copy_step content i c :
  content !! i = Some c →
  <[i := Some c]> (partial_copy content i) = partial_copy content (S i).
Proof.
  intros Hi. pose proof (lookup_lt_Some _ _ _ Hi) as Hlt. unfold partial_copy.
  rewrite insert_app_r_alt; rewrite length_fmap, length_take; [|lia].
  replace (i - i `min` length content)%nat with 0%nat by lia.
  replace (length content - i)%nat with (S (length content - S i)) by lia.
  rewrite (take_S_r _ _ _ Hi), fmap_app. simpl. by rewrite <- app_assoc.
Qed.

Lemma partial_copy_full content :
  partial_copy content (length content) = Some <$> content.
Proof.
  unfold partial_copy. rewrite firstn_all, Nat.sub_diag. simpl.
  by rewrite app_nil_r.
Qed.

(** The copy loop entered at index [i], the copy being filled up to [i],
    fills the rest of it and leaves every other block as it was. *)
Lemma copy_loop_spec b ofs nb content d : ∀ i fuel m,
  b ≠ nb → holds m b ofs content →
  blocks m !! nb = Some (partial_copy content i) →
  (i + d = length content)%nat → Z.of_nat (length content) ≤ INT_MAX →
  (d < fuel)%nat →
  copy_loop fuel (Ptr b ofs) (Ptr nb 0) (Z.of_nat (length content) - 1)
    (Z.of_nat i) m
  = Done tt {| blocks := <[nb := Some <$> content]> (blocks m);
               avail := avail m;
               trace := trace m
                        ++ copy_events b ofs nb (Z.of_nat i) (drop i content) |}.
Proof.
  induction d as [|d IH]; intros i [|fuel] m Hne Hh Hnb Hi Hmax Hfuel; try lia.
  - assert (i = length content) as -> by lia. simpl.
    rewrite decide_False by lia. rewrite drop_all. simpl.
    rewrite partial_copy_full in Hnb. rewrite (list_insert_id _ _ _ Hnb).
    rewrite app_nil_r. by destruct m.
  - destruct (lookup_lt_is_Some_2 content i) as [c Hc]; [lia|].
    simpl. rewrite decide_True by lia.
    erewrite bind_Done; last by eapply load_holds.
    assert (partial_copy content i !! i = Some None) as Hcell.
    { unfold partial_copy. rewrite lookup_app_r; rewrite length_fmap, length_take; [|lia].
      apply lookup_replicate_2. lia. }
    erewrite bind_Done; last first.
    { unfold store, cell_at. simpl. rewrite decide_True by lia.
      rewrite Hnb. simpl. rewrite !Z.add_0_l, Nat2Z.id, Hcell. reflexivity. }
    rewrite int_add_succ by lia.
    replace (Z.of_nat i + 1) with (Z.of_nat (S i)) by lia.
    rewrite partial_copy_step by done.
    rewrite (IH (S i)); [|done| | |lia..].
    + simpl. rewrite list_insert_insert_eq. rewrite (drop_S _ _ _ Hc). simpl.
      rewrite <- !app_assoc. simpl.
      by replace (Z.of_nat i + 1) with (Z.of_nat (S i)) by lia.
    + intros j c' Hj. specialize (Hh j c' Hj). unfold cell_at in *. simpl.
      by rewrite list_lookup_insert_ne.
    + simpl. apply list_lookup_insert_eq. by eapply lookup_lt_Some.
Qed.

Lemma strlen_loop_string m b ofs bytes fuel :
  holds m b ofs (bytes ++ [0]) → Forall (λ c, c ≠ 0) bytes →
  Z.of_nat (length bytes) ≤ INT_MAX → (length bytes < fuel)%nat →
  strlen_loop fuel (Ptr b ofs) 0 m
  = Done (Z.of_nat (length bytes))
         (logs (scan_events b ofs 0 (S (length bytes))) m).
Proof.
  intros. by apply (strlen_loop_spec b ofs bytes (length bytes) 0%nat).
Qed.

Lemma copy_loop_string m b ofs nb bytes fuel :
  b ≠ nb → holds m b ofs (bytes ++ [0]) →
  blocks m !! nb = Some (replicate (S (length bytes)) None) →
  Z.of_nat (length bytes) < INT_MAX → (length bytes + 1 < fuel)%nat →
  copy_loop fuel (Ptr b ofs) (Ptr nb 0) (Z.of_nat (length bytes)) 0 m
  = Done tt {| blocks := <[nb := Some <$> (bytes ++ [0])]> (blocks m);
               avail := avail m;
               trace := trace m ++ copy_events b ofs nb 0 (bytes ++ [0]) |}.
Proof.
  intros Hne Hh Hnb Hmax Hfuel.
  assert (length (bytes ++ [0]) = S (length bytes)) as Hlen
    by (rewrite length_app; simpl; lia).
  replace (Z.of_nat (length bytes)) with (Z.of_nat (length (bytes ++ [0])) - 1) by lia.
  apply (copy_loop_spec b ofs nb (bytes ++ [0]) (S (length bytes)) 0%nat);
    try done; try lia.
  unfold partial_copy. rewrite Hlen. exact Hnb.
Qed.

(** The whole function on a string, when the allocator can satisfy the
    request. *)
Lemma my_strdup_success m b ofs bytes fuel :
  string_at m (Ptr b ofs) = Some bytes →
  Z.of_nat (length bytes) < INT_MAX →
  Z.of_nat (length bytes) + 1 ≤ avail m →
  (length bytes + 1 < fuel)%nat →
  my_strdup fuel (Ptr b ofs) m
  = Done (Ptr (length (blocks m)) 0) (copied_state m b ofs bytes).
Proof.
  intros Hs Hmax Havail Hfuel.
  apply string_at_holds in Hs as (Hofs & Hnz & Hh).
  assert (b < length (blocks m))%nat as Hb.
  { specialize (Hh 0%nat). unfold cell_at in Hh.
    destruct bytes; specialize (Hh _ eq_refl); case_decide; try done;
      destruct (blocks m !! b) eqn:E; try done; by eapply lookup_lt_Some. }
  unfold my_strdup. cbn [is_null].
  erewrite bind_Done; last by (apply strlen_loop_string; [done..|lia|lia]).
  rewrite int_add_succ by lia.
  rewrite to_size_t_id by (unfold SIZE_MAX, INT_MAX in *; lia).
  erewrite bind_Done; last first.
  { unfold malloc. simpl. rewrite decide_True by done. reflexivity. }
  cbn [is_null].
  erewrite bind_Done; last first.
  { apply copy_loop_string; [simpl; lia| |simpl|done|done].
    - intros j c Hj. specialize (Hh j c Hj). unfold cell_at in *. simpl.
      case_decide; [|done]. by rewrite lookup_app_l.
    - rewrite list_lookup_middle by done.
      by replace (Z.to_nat (Z.of_nat (length bytes) + 1)) with (S (length bytes)) by lia. }
  unfold mret, M_ret, copied_state. simpl. f_equal. f_equal.
  - replace (length (blocks m)) with (length (blocks m) + 0)%nat at 1 by lia.
    by rewrite insert_app_r.
  - by rewrite <- !app_assoc.
Qed.

(** The whole function on a string, when the allocator refuses. *)
Lemma my_strdup_refused m b ofs bytes fuel :
  string_at m (Ptr b ofs) = Some bytes →
  Z.of_nat (length bytes) ≤ INT_MAX →
  avail m < to_size_t (int_add (Z.of_nat (length bytes)) 1) →
  (length bytes < fuel)%nat →
  my_strdup fuel (Ptr b ofs) m
  = Done NULL (refused_state m b ofs bytes
                 (to_size_t (int_add (Z.of_nat (length bytes)) 1))).
Proof.
  intros Hs Hmax Havail Hfuel.
  apply string_at_holds in Hs as (Hofs & Hnz & Hh).
  unfold my_strdup. cbn [is_null].
  erewrite bind_Done; last by apply strlen_loop_string.
  erewrite bind_Done; last first.
  { unfold malloc. simpl. rewrite decide_False by lia. reflexivity. }
  cbn [is_null]. unfold mret, M_ret, refused_state, logs, log. simpl.
  by rewrite <- app_assoc.
Qed.

End strdup_facts.

(** ** The footprint of [my_strdup] *)

Section strdup_frame.
Import CInt Mem StrdupFunction StrdupSpec.

Lemma bind_Done_inv {A B} (c : M A) (f : A → M B) m r m' :
  (c ≫= f) m = Done r m' → ∃ a m1, c m = Done a m1 ∧ f a m1 = Done r m'.
Proof. unfold mbind, M_bind. destruct (c m) as [a m1| |]; [eauto|done..]. Qed.

Lemma load_inv b ofs m c m1 :
  load (Ptr b ofs) m = Done c m1 → m1 = log (EvLoad b ofs) m.
Proof.
  unfold load. destruct (cell_at m b ofs) as [[c'|]|]; [|done..].
  by intros [= _ <-].
Qed.

Lemma store_inv b ofs c m m1 :
  store (Ptr b ofs) c m = Done tt m1 →
  ∃ blk, m1 = log (EvStore b ofs c)
                {| blocks := <[b := blk]> (blocks m);
                   avail := avail m;
                   trace := trace m |}.
Proof.
  unfold store. destruct (cell_at m b ofs); [|done].
  destruct (blocks m !! b); [|done]. intros [= <-]. eauto.
Qed.

(** The length scan changes neither a block nor the allocator, and only
    reads the block of [s]. *)
Lemma strlen_loop_frame m0 b ofs fuel : ∀ k m r m',
  strlen_loop fuel (Ptr b ofs) k m = Done r m' →
  blocks m' = blocks m ∧ avail m' = avail m ∧
  ∃ evs, trace m' = trace m ++ evs ∧ Forall (respects_source m0 b) evs.
Proof.
  induction fuel as [|fuel IH]; intros k m r m'; simpl; [done|].
  intros (c & m1 & Hload & Hrest)%bind_Done_inv.
  apply load_inv in Hload as ->. case_decide.
  - apply IH in Hrest as (Hb & Ha & evs & Ht & Hevs).
    split_and!; [done..|]. exists (EvLoad b (ofs + k) :: evs).
    split; [by rewrite Ht; simpl; rewrite <- app_assoc|by constructor].
  - injection Hrest as <- <-. split_and!; [done..|].
    exists [EvLoad b (ofs + k)]. split; [done|by repeat constructor].
Qed.

(** The copy loop keeps the allocator and every block below [nb] as they
    are; it reads the block of [s] and writes into block [nb]. *)
Lemma copy_loop_frame m0 b ofs nb o len fuel : ∀ i m m',
  (length (blocks m0) ≤ nb)%nat →
  copy_loop fuel (Ptr b ofs) (Ptr nb o) len i m = Done tt m' →
  take (length (blocks m0)) (blocks m') = take (length (blocks m0)) (blocks m) ∧
  avail m' = avail m ∧
  ∃ evs, trace m' = trace m ++ evs ∧ Forall (respects_source m0 b) evs.
Proof.
  induction fuel as [|fuel IH]; intros i m m' Hnb; simpl; [done|].
  case_decide.
  - intros (c & m1 & Hload & Hrest)%bind_Done_inv.
    apply load_inv in Hload as ->.
    apply bind_Done_inv in Hrest as ([] & m2 & Hstore & Hrest).
    apply store_inv in Hstore as [blk ->].
    apply IH in Hrest as (Hb & Ha & evs & Ht & Hevs); [|done].
    split_and!.
    + rewrite Hb. simpl. by apply take_insert_ge.
    + done.
    + exists (EvLoad b (ofs + i) :: EvStore nb (o + i) c :: evs).
      split; [by rewrite Ht; simpl; rewrite <- !app_assoc|].
      by repeat constructor.
  - intros [= <-]. split_and!; [done..|]. exists []. by rewrite app_nil_r.
Qed.

(** Whenever [my_strdup] returns, the blocks that existed at entry are
    unchanged, and the function has only read the block of [s] and only
    written into a block that did not exist at entry. *)
Lemma my_strdup_frame fuel b ofs m r m' :
  my_strdup fuel (Ptr b ofs) m = Done r m' →
  blocks m `prefix_of` blocks m' ∧
  ∃ evs, trace m' = trace m ++ evs ∧ Forall (respects_source m b) evs.
Proof.
  unfold my_strdup. cbn [is_null].
  intros (len & m1 & Hscan & Hrest)%bind_Done_inv.
  apply (strlen_loop_frame m) in Hscan as (Hb1 & Ha1 & evs1 & Ht1 & Hevs1).
  apply bind_Done_inv in Hrest as (copy & m2 & Halloc & Hrest).
  unfold malloc in Halloc. case_decide.
  - injection Halloc as <- <-. cbn [is_null] in Hrest.
    apply bind_Done_inv in Hrest as ([] & m3 & Hcopy & Hret).
    injection Hret as <- <-.
    apply (copy_loop_frame m) in Hcopy as (Hb3 & Ha3 & evs3 & Ht3 & Hevs3);
      [|rewrite Hb1; done].
    simpl in Hb3, Ht3. rewrite Hb1, take_app_length in Hb3. split.
    + exists (drop (length (blocks m)) (blocks m3)).
      by rewrite <- Hb3 at 1; rewrite take_drop.
    + exists (evs1 ++ EvAlloc (to_size_t (int_add len 1)) (Ptr (length (blocks m)) 0) :: evs3).
      split.
      * rewrite Ht3, Ht1, Hb1. by rewrite <- !app_assoc.
      * apply Forall_app. split; [done|by constructor].
  - injection Halloc as <- <-. cbn [is_null] in Hrest.
    injection Hrest as <- <-. simpl. rewrite Hb1. split; [done|].
    exists (evs1 ++ [EvAlloc (to_size_t (int_add len 1)) NULL]). split.
    + by rewrite Ht1, <- app_assoc.
    + apply Forall_app. split; [done|by repeat constructor].
Qed.

End strdup_frame.

(** ** What [my_strdup] does for its caller *)

Section strdup_claims.
Import CInt Mem StrdupFunction StrdupSpec.

Lemma string_at_same_block m m' b ofs :
  blocks m' !! b = blocks m !! b →
  string_at m' (Ptr b ofs) = string_at m (Ptr b ofs).
Proof. intros Hb. unfold string_at. by rewrite Hb. Qed.

(** A write through a pointer into one block leaves every other block as
    it was. *)
Lemma store_other_block m m' b i c b' :
  store (Ptr b i) c m = Done tt m' → b' ≠ b →
  blocks m' !! b' = blocks m !! b'.
Proof.
  unfold store. destruct (cell_at m b i); [|done].
  destruct (blocks m !! b); [|done]. intros [= <-] Hne. simpl.
  by apply list_lookup_insert_ne.
Qed.

Lemma copied_state_old_block m b ofs bytes b' :
  (b' < length (blocks m))%nat →
  blocks (copied_state m b ofs bytes) !! b' = blocks m !! b'.
Proof. intros Hb. simpl. by apply lookup_app_l. Qed.

Lemma copied_state_new_block m b ofs bytes :
  blocks (copied_state m b ofs bytes) !! length (blocks m)
  = Some (Some <$> (bytes ++ [0])).
Proof. simpl. by apply list_lookup_middle. Qed.

Lemma string_at_block m b ofs bytes :
  string_at m (Ptr b ofs) = Some bytes → (b < length (blocks m))%nat.
Proof.
  unfold string_at. case_decide; [|done].
  destruct (blocks m !! b) eqn:Hb; [|done]. intros _. by eapply lookup_lt_Some.
Qed.

Lemma copied_state_holds m b ofs bytes :
  holds (copied_state m b ofs bytes) (length (blocks m)) 0 (bytes ++ [0]).
Proof.
  intros j c Hj. rewrite Z.add_0_l.
  rewrite (cell_at_Some _ _ _ _ (Nat2Z.is_nonneg j) (copied_state_new_block m b ofs bytes)).
  by rewrite Nat2Z.id, list_lookup_fmap, Hj.
Qed.

(** C2: for the null pointer [my_strdup] returns the null pointer at once,
    whatever the loop budget: the final state is the initial one, so no
    byte was read, nothing was allocated and nothing was written. *)
Theorem my_strdup_null fuel m :
  my_strdup fuel NULL m = Done NULL m.
Proof. reflexivity. Qed.

(** C1 (as amended): for a pointer [s] to a string shorter than [INT_MAX]
    and an allocator that can supply [length + 1] bytes, [my_strdup]
    returns a non-null pointer to a fresh block that holds the same
    string: same length, same bytes, terminator at index [length]. The
    copy is in another block than [s], and a write through a pointer into
    either block leaves the string in the other unchanged. *)
Theorem my_strdup_duplicates m b ofs bytes fuel :
  string_at m (Ptr b ofs) = Some bytes →
  Z.of_nat (length bytes) < INT_MAX →
  Z.of_nat (length bytes) + 1 ≤ avail m →
  (length bytes + 1 < fuel)%nat →
  ∃ nb m',
    my_strdup fuel (Ptr b ofs) m = Done (Ptr nb 0) m' ∧
    is_null (Ptr nb 0) = false ∧
    string_at m' (Ptr nb 0) = Some bytes ∧
    (∀ i, 0 ≤ i ≤ Z.of_nat (length bytes) →
       cell_at m' nb i = cell_at m b (ofs + i)) ∧
    cell_at m' nb (Z.of_nat (length bytes)) = Some (Some 0) ∧
    nb ≠ b ∧
    (∀ i c m'', store (Ptr nb i) c m' = Done tt m'' →
       string_at m'' (Ptr b ofs) = Some bytes) ∧
    (∀ i c m'', store (Ptr b i) c m' = Done tt m'' →
       string_at m'' (Ptr nb 0) = Some bytes).
Proof.
  intros Hs Hmax Havail Hfuel.
  pose proof (string_at_block _ _ _ _ Hs) as Hb.
  pose proof (copied_state_holds m b ofs bytes) as Hnew.
  destruct (string_at_holds _ _ _ _ Hs) as (Hofs & Hnz & Hold).
  assert (string_at (copied_state m b ofs bytes) (Ptr (length (blocks m)) 0)
          = Some bytes) as Hcopy by (by apply holds_string_at).
  assert (string_at (copied_state m b ofs bytes) (Ptr b ofs) = Some bytes) as Hsrc.
  { rewrite <- Hs. by apply string_at_same_block, copied_state_old_block. }
  exists (length (blocks m)), (copied_state m b ofs bytes).
  split_and!; [by apply my_strdup_success|done|done| | |lia| |].
  - intros i Hi. replace i with (0 + Z.of_nat (Z.to_nat i)) at 1 by lia.
    replace (ofs + i) with (ofs + Z.of_nat (Z.to_nat i)) by lia.
    destruct (lookup_lt_is_Some_2 (bytes ++ [0]) (Z.to_nat i)) as [c Hc].
    { rewrite length_app. simpl. lia. }
    by rewrite (Hnew _ _ Hc), (Hold _ _ Hc).
  - rewrite <- (Z.add_0_l (Z.of_nat (length bytes))). apply Hnew.
    by apply list_lookup_middle.
  - intros i c m'' Hst. rewrite <- Hsrc.
    apply string_at_same_block. eapply store_other_block; [done|lia].
  - intros i c m'' Hst. rewrite <- Hcopy.
    apply string_at_same_block. eapply store_other_block; [done|lia].
Qed.

(** C3: whenever the length scan of a non-null [s] has returned and the
    allocation that follows it fails, [my_strdup] returns the null
    pointer, the very value it returns for the null input. This happens
    for every string of length at most [INT_MAX] whose copy the allocator
    cannot supply, and then neither a block nor the allocator has
    changed. *)
Theorem my_strdup_allocation_failure :
  (∀ fuel s m len m1 m2,
     is_null s = false →
     strlen_loop fuel s 0 m = Done len m1 →
     malloc (to_size_t (int_add len 1)) m1 = Done NULL m2 →
     my_strdup fuel s m = Done NULL m2 ∧
     result (my_strdup fuel s m) = result (my_strdup fuel NULL m)) ∧
  (∀ fuel b ofs m bytes,
     string_at m (Ptr b ofs) = Some bytes →
     Z.of_nat (length bytes) ≤ INT_MAX →
     avail m < to_size_t (int_add (Z.of_nat (length bytes)) 1) →
     (length bytes < fuel)%nat →
     ∃ m',
       my_strdup fuel (Ptr b ofs) m = Done NULL m' ∧
       result (my_strdup fuel (Ptr b ofs) m) = result (my_strdup fuel NULL m) ∧
       blocks m' = blocks m ∧ avail m' = avail m).
Proof.
  split.
  - intros fuel s m len m1 m2 Hs Hscan Halloc.
    assert (my_strdup fuel s m = Done NULL m2) as Hrun.
    { unfold my_strdup. rewrite Hs.
      rewrite (bind_Done _ _ _ _ _ Hscan), (bind_Done _ _ _ _ _ Halloc).
      done. }
    by rewrite Hrun.
  - intros fuel b ofs m bytes Hs Hmax Havail Hfuel. eexists.
    rewrite (my_strdup_refused _ _ _ _ _ Hs Hmax Havail Hfuel).
    by split_and!.
Qed.

(** C10: whenever a call of [my_strdup] on a non-null [s] returns, with
    or without a copy, every block that existed at entry is unchanged, so
    every byte of [s], terminator included, has the value it had and [s]
    still designates the same string; the only reads are reads of the
    block of [s] and the only writes go into a block that did not exist
    at entry. On a string shorter than [INT_MAX] the call does return. *)
Theorem my_strdup_preserves_source :
  (∀ fuel b ofs m r m',
     my_strdup fuel (Ptr b ofs) m = Done r m' →
     blocks m `prefix_of` blocks m' ∧
     (∀ i c, cell_at m b i = Some c → cell_at m' b i = Some c) ∧
     (∀ bytes, string_at m (Ptr b ofs) = Some bytes →
        string_at m' (Ptr b ofs) = Some bytes) ∧
     ∃ evs, trace m' = trace m ++ evs ∧ Forall (respects_source m b) evs) ∧
  (∀ fuel b ofs m bytes,
     string_at m (Ptr b ofs) = Some bytes →
     Z.of_nat (length bytes) < INT_MAX →
     (length bytes + 1 < fuel)%nat →
     ∃ r m', my_strdup fuel (Ptr b ofs) m = Done r m').
Proof.
  split.
  - intros fuel b ofs m r m' Hrun.
    apply my_strdup_frame in Hrun as ([new Hblocks] & Hevs).
    assert (∀ blk, blocks m !! b = Some blk → blocks m' !! b = Some blk) as Hsame.
    { intros blk Hb. rewrite Hblocks. by apply lookup_app_l_Some. }
    split_and!; [by exists new| | |done].
    + intros i c. unfold cell_at. case_decide; [|done].
      destruct (blocks m !! b) as [blk|] eqn:Hb; [|done].
      by rewrite (Hsame blk).
    + intros bytes. unfold string_at. case_decide; [|done].
      destruct (blocks m !! b) as [blk|] eqn:Hb; [|done].
      by rewrite (Hsame blk).
  - intros fuel b ofs m bytes Hs Hmax Hfuel.
    destruct (decide (Z.of_nat (length bytes) + 1 ≤ avail m)) as [Havail|Havail].
    + eexists _, _. by apply my_strdup_success.
    + eexists _, _. apply my_strdup_refused; [done|lia| |lia].
      rewrite int_add_succ by lia.
      rewrite to_size_t_id by (unfold SIZE_MAX, INT_MAX in *; lia). lia.
Qed.

End strdup_claims.

(** ** The contract of [qsort] *)

Section qsort_facts.
Import CInt Qsort.

Lemma total_order_on_total compar l x y :
  total_order_on compar l → x ∈ l → y ∈ l →
  ¬ compar x y ≤ 0 → compar y x ≤ 0.
Proof. intros Ho Hx Hy Hxy. destruct (Ho x y y Hx Hy Hy) as [Hs _]. lia. Qed.

Lemma total_order_on_subseteq compar l l' :
  l' ⊆ l → total_order_on compar l → total_order_on compar l'.
Proof. intros Hsub Ho x y z Hx Hy Hz. apply Ho; by apply Hsub. Qed.

Lemma insert_by_perm compar x l : insert_by compar x l ≡ₚ x :: l.
Proof.
  induction l as [|y l IH]; simpl; [done|].
  case_decide; [done|]. rewrite IH. apply perm_swap.
Qed.

Lemma insertion_sort_perm compar l : insertion_sort compar l ≡ₚ l.
Proof.
  induction l as [|x l IH]; simpl; [done|].
  by rewrite insert_by_perm, IH.
Qed.

Lemma insert_by_sorted compar x l :
  (∀ y, y ∈ l → ¬ compar x y ≤ 0 → compar y x ≤ 0) →
  sorted_by compar l → sorted_by compar (insert_by compar x l).
Proof.
  unfold sorted_by. intros Htot Hl.
  induction Hl as [|y l Hl IH Hhd]; simpl.
  - by repeat constructor.
  - case_decide as Hxy.
    + by repeat constructor.
    + constructor.
      * apply IH. intros z Hz. apply Htot. by right.
      * destruct Hhd as [|z l' Hyz]; simpl.
        -- constructor. apply Htot; [by left|done].
        -- case_decide; constructor; [|done]. apply Htot; [by left|done].
Qed.

Lemma insertion_sort_sorted compar l :
  total_order_on compar l → sorted_by compar (insertion_sort compar l).
Proof.
  induction l as [|x l IH]; intros Ho; simpl.
  - constructor.
  - apply insert_by_sorted.
    + intros y Hy. apply (total_order_on_total compar (x :: l)); [done|by left|].
      right. by rewrite <- (insertion_sort_perm compar l).
    + apply IH. eapply total_order_on_subseteq; [|done].
      intros y Hy. by right.
Qed.

(** The contract can be met: straight insertion meets it. *)
Lemma reference_qsort_spec : QsortSpec reference_qsort.
Proof.
  intros base nmemb compar Hn Ho. exists (insertion_sort compar (take (Z.to_nat nmemb) base)).
  split_and!; [done|apply insertion_sort_perm|by apply insertion_sort_sorted].
Qed.

(** Being sorted only depends on the relation between elements of the
    list. *)
Lemma Sorted_impl_elem (R1 R2 : relation Z) l :
  (∀ x y, x ∈ l → y ∈ l → R1 x y → R2 x y) → Sorted R1 l → Sorted R2 l.
Proof.
  intros HR Hl. induction Hl as [|x l Hl IH Hhd]; constructor.
  - apply IH. intros y z Hy Hz. apply HR; by right.
  - destruct Hhd as [|y l' Hxy]; constructor.
    apply HR; [by left|right; by left|done].
Qed.

Lemma Sorted_lookup_adjacent (R : relation Z) l i x y :
  Sorted R l → l !! i = Some x → l !! S i = Some y → R x y.
Proof.
  intros Hl. revert i. induction Hl as [|z l Hl IH Hhd]; intros i; [done|].
  destruct i as [|i]; simpl.
  - intros [= ->] Hy. destruct Hhd as [|w l' Hzw]; [done|]. by simplify_eq/=.
  - apply IH.
Qed.

(** Sorting a whole array under a comparator that decides a transitive
    and antisymmetric relation on its elements has one possible result,
    whatever the algorithm. *)
Lemma qsort_determined qsort (R : relation Z) l expected compar nmemb :
  QsortSpec qsort → Transitive R → AntiSymm (=) R →
  nmemb = Z.of_nat (length l) →
  total_order_on compar l →
  (∀ x y, x ∈ l → y ∈ l → compar x y ≤ 0 → R x y) →
  expected ≡ₚ l → Sorted R expected →
  qsort l nmemb compar = expected.
Proof.
  intros Hq HT HA -> Ho HR Hperm Hexp.
  destruct (Hq l (Z.of_nat (length l)) compar) as (sorted & -> & Hp & Hs).
  - lia.
  - by rewrite Nat2Z.id, firstn_all.
  - rewrite Nat2Z.id, firstn_all in Hp. rewrite Nat2Z.id, drop_all, app_nil_r.
    apply (Sorted_unique R); [|done|by rewrite Hp, Hperm].
    eapply Sorted_impl_elem; [|exact Hs].
    intros x y Hx Hy. apply HR; by rewrite <- Hp.
Qed.

End qsort_facts.

(** ** The comparators *)

Section comparator_facts.
Import CInt Qsort DemoSpec.

Lemma int_sub_exact a b : in_int (a - b) → int_sub a b = a - b.
Proof. apply wrap_int_id. Qed.

(** The sign of the wrapped difference is the sign of the difference
    exactly when the difference is an [int]. *)
Lemma int_sub_sgn a b :
  in_int a → in_int b →
  Z.sgn (int_sub a b) = Z.sgn (a - b) ↔ in_int (a - b).
Proof.
  intros Ha Hb. split.
  - intros Hs. unfold in_int, INT_MIN, INT_MAX in *.
    destruct (decide (a - b < - 2 ^ 31)) as [Hlow|Hlow].
    { unfold int_sub in Hs. rewrite wrap_int_low in Hs
        by (unfold INT_MIN; lia). lia. }
    destruct (decide (2 ^ 31 - 1 < a - b)) as [Hhigh|Hhigh]; [|lia].
    unfold int_sub in Hs. rewrite wrap_int_high in Hs
      by (unfold INT_MAX; lia). lia.
  - intros Hd. by rewrite int_sub_exact.
Qed.

Lemma nonneg_int_diff l x y :
  Forall nonneg_int l → x ∈ l → y ∈ l → in_int (x - y).
Proof.
  intros Hl Hx Hy. rewrite Forall_forall in Hl.
  pose proof (Hl x Hx). pose proof (Hl y Hy).
  unfold nonneg_int, in_int, INT_MIN, INT_MAX in *. lia.
Qed.

Lemma ascending_total_order compar l :
  (∀ x y, x ∈ l → y ∈ l → compar x y = x - y) → total_order_on compar l.
Proof.
  intros He x y z Hx Hy Hz.
  rewrite (He x y), (He y x), (He y z), (He x z) by done. lia.
Qed.

Lemma descending_total_order compar l :
  (∀ x y, x ∈ l → y ∈ l → compar x y = y - x) → total_order_on compar l.
Proof.
  intros He x y z Hx Hy Hz.
  rewrite (He x y), (He y x), (He y z), (He x z) by done. lia.
Qed.

(** Under [a - b] on non-negative values the sorted array is the
    increasing arrangement of the values. *)
Lemma qsort_ascending qsort compar l expected nmemb :
  QsortSpec qsort → (∀ a b, compar a b = int_sub a b) →
  Forall nonneg_int l → nmemb = Z.of_nat (length l) →
  expected ≡ₚ l → Sorted Z.le expected →
  qsort l nmemb compar = expected.
Proof.
  intros Hq Hc Hl Hn Hp Hs.
  assert (∀ x y, x ∈ l → y ∈ l → compar x y = x - y) as He.
  { intros x y Hx Hy. rewrite Hc. apply int_sub_exact. by eapply nonneg_int_diff. }
  apply (qsort_determined qsort Z.le); try done.
  - intros x y z. lia.
  - intros x y. lia.
  - by apply ascending_total_order.
  - intros x y Hx Hy. rewrite He by done. lia.
Qed.

(** Under [b - a] it is the decreasing arrangement. *)
Lemma qsort_descending qsort compar l expected nmemb :
  QsortSpec qsort → (∀ a b, compar a b = int_sub b a) →
  Forall nonneg_int l → nmemb = Z.of_nat (length l) →
  expected ≡ₚ l → Sorted (flip Z.le) expected →
  qsort l nmemb compar = expected.
Proof.
  intros Hq Hc Hl Hn Hp Hs.
  assert (∀ x y, x ∈ l → y ∈ l → compar x y = y - x) as He.
  { intros x y Hx Hy. rewrite Hc. apply int_sub_exact. by eapply nonneg_int_diff. }
  apply (qsort_determined qsort (flip Z.le)); try done.
  - intros x y z. unfold flip. lia.
  - intros x y. unfold flip. lia.
  - by apply descending_total_order.
  - intros x y Hx Hy. rewrite He by done. unfold flip. lia.
Qed.

End comparator_facts.

(** ** The four demonstrations *)

Section demo_facts.
Import CInt CArray Stdio Qsort DemoSpec.

Ltac nonneg_ints := repeat constructor; by vm_compute.
Ltac arrangement compar arr :=
  transitivity (insertion_sort compar arr);
    [by vm_compute|apply insertion_sort_perm].
Ltac in_order := repeat constructor; by vm_compute.

Lemma integers_ascending_sorted_arr qsort :
  QsortSpec qsort →
  IntegersAscending.sorted_arr qsort = [1; 2; 5; 5; 6; 9].
Proof.
  intros Hq. apply qsort_ascending; [done|done|nonneg_ints|done| |in_order].
  arrangement IntegersAscending.cmp_int IntegersAscending.arr.
Qed.

Lemma integers_descending_sorted_arr qsort :
  QsortSpec qsort →
  IntegersDescending.sorted_arr qsort = [9; 6; 5; 5; 2; 1].
Proof.
  intros Hq. apply qsort_descending; [done|done|nonneg_ints|done| |in_order].
  arrangement IntegersDescending.cmp_int_desc IntegersDescending.arr.
Qed.

Lemma characters_ascending_sorted_arr qsort :
  QsortSpec qsort →
  CharactersAscending.sorted_arr qsort = [0; 97; 97; 108; 109; 115].
Proof.
  intros Hq. apply qsort_ascending; [done|done|nonneg_ints|done| |in_order].
  arrangement CharactersAscending.cmp_char_asc CharactersAscending.arr.
Qed.

Lemma characters_descending_sorted_arr qsort :
  QsortSpec qsort →
  CharactersDescending.sorted_arr qsort = [122; 113; 109; 98; 97].
Proof.
  intros Hq. apply qsort_descending; [done|done|nonneg_ints|done| |in_order].
  arrangement CharactersDescending.cmp_char_desc CharactersDescending.arr.
Qed.

Lemma sorted_by_adjacent_le compar l : sorted_by compar l → adjacent_le compar l.
Proof.
  intros Hs i x y Hx Hy.
  exact (Sorted_lookup_adjacent (λ a b, compar a b ≤ 0) l i x y Hs Hx Hy).
Qed.

Lemma qsort_ascending_fixed qsort compar l nmemb :
  QsortSpec qsort → (∀ a b, compar a b = int_sub a b) →
  Forall nonneg_int l → nmemb = Z.of_nat (length l) →
  sorted_by compar l → qsort l nmemb compar = l.
Proof.
  intros Hq Hc Hl Hn Hs. apply qsort_ascending; try done.
  eapply Sorted_impl_elem; [|exact Hs]. intros x y Hx Hy. simpl.
  rewrite Hc, int_sub_exact by (by eapply nonneg_int_diff). lia.
Qed.

Lemma qsort_descending_fixed qsort compar l nmemb :
  QsortSpec qsort → (∀ a b, compar a b = int_sub b a) →
  Forall nonneg_int l → nmemb = Z.of_nat (length l) →
  sorted_by compar l → qsort l nmemb compar = l.
Proof.
  intros Hq Hc Hl Hn Hs. apply qsort_descending; try done.
  eapply Sorted_impl_elem; [|exact Hs]. intros x y Hx Hy. simpl.
  rewrite Hc, int_sub_exact by (by eapply nonneg_int_diff). unfold flip. lia.
Qed.

(** A comparator for which sorted arrangements of the values of [arr] are
    fixed by [qsort] makes a second sort of [arr] idle. *)
Lemma resort_stable_intro qsort compar printf arr n :
  QsortSpec qsort →
  to_size_t n = Z.of_nat (length arr) →
  total_order_on compar arr →
  (∀ l, l ≡ₚ arr → sorted_by compar l → qsort l (to_size_t n) compar = l) →
  resort_stable qsort compar printf arr n.
Proof.
  intros Hq Hn Ho Hfix.
  assert (qsort (qsort arr (to_size_t n) compar) (to_size_t n) compar
          = qsort arr (to_size_t n) compar) as Htwice.
  { destruct (Hq arr (to_size_t n) compar) as (sorted & Heq & Hp & Hs).
    - lia.
    - by rewrite Hn, Nat2Z.id, firstn_all.
    - rewrite Hn, Nat2Z.id, firstn_all in Hp.
      rewrite Hn, Nat2Z.id, drop_all, app_nil_r in Heq.
      rewrite <- Hn in Heq. rewrite Heq. by apply Hfix. }
  split_and!; [done|done|by rewrite Htwice].
Qed.

Lemma nonneg_int_perm l l' :
  l ≡ₚ l' → Forall nonneg_int l' → Forall nonneg_int l.
Proof. intros Hp. by rewrite Hp. Qed.

(** C4: in each of the four demonstrations the text written is the
    elements of a sequence [l], each printed with the conversion of the
    program and in the order of [l], then a newline; [l] is a
    rearrangement of the initial array in which no element is ranked by
    the comparator above its successor, which for these comparators is
    the increasing (respectively decreasing) order of the values. *)
Theorem demonstrations_in_order qsort :
  QsortSpec qsort →
  (∃ l, l ≡ₚ IntegersAscending.arr ∧
     IntegersAscending.main qsort
     = Some (printf_nl (foldl (λ out x, printf_d x out) EmptyString l), 0) ∧
     adjacent_le IntegersAscending.cmp_int l ∧
     Sorted Z.le l) ∧
  (∃ l, l ≡ₚ IntegersDescending.arr ∧
     IntegersDescending.main qsort
     = Some (printf_nl (foldl (λ out x, printf_d x out) EmptyString l), 0) ∧
     adjacent_le IntegersDescending.cmp_int_desc l ∧
     Sorted (flip Z.le) l) ∧
  (∃ l, l ≡ₚ CharactersAscending.arr ∧
     CharactersAscending.main qsort
     = Some (printf_nl (foldl (λ out x, printf_c x out) EmptyString l), 0) ∧
     adjacent_le CharactersAscending.cmp_char_asc l ∧
     Sorted Z.le l) ∧
  (∃ l, l ≡ₚ CharactersDescending.arr ∧
     CharactersDescending.main qsort
     = Some (printf_nl (foldl (λ out x, printf_c x out) EmptyString l), 0) ∧
     adjacent_le CharactersDescending.cmp_char_desc l ∧
     Sorted (flip Z.le) l).
Proof.
  intros Hq. split_and!.
  - exists [1; 2; 5; 5; 6; 9]. split_and!.
    + arrangement IntegersAscending.cmp_int IntegersAscending.arr.
    + unfold IntegersAscending.main. by rewrite integers_ascending_sorted_arr.
    + apply sorted_by_adjacent_le. in_order.
    + in_order.
  - exists [9; 6; 5; 5; 2; 1]. split_and!.
    + arrangement IntegersDescending.cmp_int_desc IntegersDescending.arr.
    + unfold IntegersDescending.main. by rewrite integers_descending_sorted_arr.
    + apply sorted_by_adjacent_le. in_order.
    + in_order.
  - exists [0; 97; 97; 108; 109; 115]. split_and!.
    + arrangement CharactersAscending.cmp_char_asc CharactersAscending.arr.
    + unfold CharactersAscending.main. by rewrite characters_ascending_sorted_arr.
    + apply sorted_by_adjacent_le. in_order.
    + in_order.
  - exists [122; 113; 109; 98; 97]. split_and!.
    + arrangement CharactersDescending.cmp_char_desc CharactersDescending.arr.
    + unfold CharactersDescending.main. by rewrite characters_descending_sorted_arr.
    + apply sorted_by_adjacent_le. in_order.
    + in_order.
Qed.

(** C5: in each of the four demonstrations the text written is the
    elements of a sequence [l], each printed with the conversion of the
    program and in the order of [l], then a newline, where [l] is a
    rearrangement of the initial array: the same values, each as many
    times. *)
Theorem demonstrations_permute qsort :
  QsortSpec qsort →
  (∃ l, l ≡ₚ IntegersAscending.arr ∧
     IntegersAscending.main qsort
     = Some (printf_nl (foldl (λ out x, printf_d x out) EmptyString l), 0)) ∧
  (∃ l, l ≡ₚ IntegersDescending.arr ∧
     IntegersDescending.main qsort
     = Some (printf_nl (foldl (λ out x, printf_d x out) EmptyString l), 0)) ∧
  (∃ l, l ≡ₚ CharactersAscending.arr ∧
     CharactersAscending.main qsort
     = Some (printf_nl (foldl (λ out x, printf_c x out) EmptyString l), 0)) ∧
  (∃ l, l ≡ₚ CharactersDescending.arr ∧
     CharactersDescending.main qsort
     = Some (printf_nl (foldl (λ out x, printf_c x out) EmptyString l), 0)).
Proof.
  intros Hq. split_and!.
  - exists (IntegersAscending.sorted_arr qsort). rewrite integers_ascending_sorted_arr by done. split.
    + arrangement IntegersAscending.cmp_int IntegersAscending.arr.
    + unfold IntegersAscending.main. by rewrite integers_ascending_sorted_arr.
  - exists (IntegersDescending.sorted_arr qsort). rewrite integers_descending_sorted_arr by done. split.
    + arrangement IntegersDescending.cmp_int_desc IntegersDescending.arr.
    + unfold IntegersDescending.main. by rewrite integers_descending_sorted_arr.
  - exists (CharactersAscending.sorted_arr qsort). rewrite characters_ascending_sorted_arr by done. split.
    + arrangement CharactersAscending.cmp_char_asc CharactersAscending.arr.
    + unfold CharactersAscending.main. by rewrite characters_ascending_sorted_arr.
  - exists (CharactersDescending.sorted_arr qsort). rewrite characters_descending_sorted_arr by done. split.
    + arrangement CharactersDescending.cmp_char_desc CharactersDescending.arr.
    + unfold CharactersDescending.main. by rewrite characters_descending_sorted_arr.
Qed.

(** C6: the integer ascending demonstration starts from the array
    [5, 2, 9, 1, 5, 6], writes the line ["1 2 5 5 6 9 "] (a space after
    every element) followed by a newline, and exits with status 0. *)
Theorem integers_ascending_output qsort :
  QsortSpec qsort →
  IntegersAscending.arr = [5; 2; 9; 1; 5; 6] ∧
  IntegersAscending.main qsort
  = Some (String.append "1 2 5 5 6 9 " newline, 0).
Proof.
  intros Hq. split; [done|]. unfold IntegersAscending.main.
  by rewrite integers_ascending_sorted_arr.
Qed.

(** C7: the array of the character ascending demonstration has the six
    elements of the literal ["salam"], terminator included; all six are
    sorted, so the ['\0'] comes first, and the text written is the NUL
    byte, then [" a a l m s "], then a newline. *)
Theorem characters_ascending_output qsort :
  QsortSpec qsort →
  CharactersAscending.arr = [115; 97; 108; 97; 109; 0] ∧
  CharactersAscending.n = 6 ∧
  CharactersAscending.sorted_arr qsort = [0; 97; 97; 108; 109; 115] ∧
  CharactersAscending.main qsort
  = Some (String "000"%char (String.append " a a l m s " newline), 0).
Proof.
  intros Hq. split_and!; [done|done|by apply characters_ascending_sorted_arr|].
  unfold CharactersAscending.main.
  by rewrite characters_ascending_sorted_arr.
Qed.

(** C8: in each of the four demonstrations a second sort of the sorted
    array returns it unchanged, so the text printed is the same; more
    generally every arrangement of the values that is already in the
    order of the comparator is returned unchanged. *)
Theorem demonstrations_idempotent qsort :
  QsortSpec qsort →
  resort_stable qsort IntegersAscending.cmp_int printf_d
    IntegersAscending.arr IntegersAscending.n ∧
  resort_stable qsort IntegersDescending.cmp_int_desc printf_d
    IntegersDescending.arr IntegersDescending.n ∧
  resort_stable qsort CharactersAscending.cmp_char_asc printf_c
    CharactersAscending.arr CharactersAscending.n ∧
  resort_stable qsort CharactersDescending.cmp_char_desc printf_c
    CharactersDescending.arr CharactersDescending.n.
Proof.
  intros Hq. split_and!; (apply resort_stable_intro; [done|done| |]).
  - apply ascending_total_order. intros x y Hx Hy.
    apply int_sub_exact, (nonneg_int_diff IntegersAscending.arr); [nonneg_ints|done..].
  - intros l Hp Hs. apply qsort_ascending_fixed; [done|done| | |done].
    + eapply nonneg_int_perm; [done|nonneg_ints].
    + by rewrite (Permutation_length Hp).
  - apply descending_total_order. intros x y Hx Hy.
    apply int_sub_exact, (nonneg_int_diff IntegersDescending.arr); [nonneg_ints|done..].
  - intros l Hp Hs. apply qsort_descending_fixed; [done|done| | |done].
    + eapply nonneg_int_perm; [done|nonneg_ints].
    + by rewrite (Permutation_length Hp).
  - apply ascending_total_order. intros x y Hx Hy.
    apply int_sub_exact, (nonneg_int_diff CharactersAscending.arr); [nonneg_ints|done..].
  - intros l Hp Hs. apply qsort_ascending_fixed; [done|done| | |done].
    + eapply nonneg_int_perm; [done|nonneg_ints].
    + by rewrite (Permutation_length Hp).
  - apply descending_total_order. intros x y Hx Hy.
    apply int_sub_exact, (nonneg_int_diff CharactersDescending.arr); [nonneg_ints|done..].
  - intros l Hp Hs. apply qsort_descending_fixed; [done|done| | |done].
    + eapply nonneg_int_perm; [done|nonneg_ints].
    + by rewrite (Permutation_length Hp).
Qed.

(** C9: on [int] operands the sign of [a - b] as [cmp_int] computes it
    (of [b - a] as [cmp_int_desc] computes it) is the sign of the
    mathematical difference exactly when that difference is an [int].
    Every difference of two elements of the demonstration array is one,
    so on that array the comparators return the exact differences and
    are total orders; on the [int] values [INT_MIN], [0], [1] they are
    not. *)
Theorem subtraction_comparators :
  (∀ a b, in_int a → in_int b →
     (Z.sgn (IntegersAscending.cmp_int a b) = Z.sgn (a - b) ↔ in_int (a - b))) ∧
  (∀ a b, in_int a → in_int b →
     (Z.sgn (IntegersDescending.cmp_int_desc a b) = Z.sgn (b - a)
      ↔ in_int (b - a))) ∧
  IntegersAscending.arr = [5; 2; 9; 1; 5; 6] ∧
  IntegersDescending.arr = [5; 2; 9; 1; 5; 6] ∧
  (∀ a b, a ∈ IntegersAscending.arr → b ∈ IntegersAscending.arr →
     in_int (a - b) ∧
     IntegersAscending.cmp_int a b = a - b ∧
     IntegersDescending.cmp_int_desc a b = b - a) ∧
  total_order_on IntegersAscending.cmp_int IntegersAscending.arr ∧
  total_order_on IntegersDescending.cmp_int_desc IntegersDescending.arr ∧
  in_int INT_MIN ∧
  ¬ total_order_on IntegersAscending.cmp_int [INT_MIN; 0; 1] ∧
  ¬ total_order_on IntegersDescending.cmp_int_desc [INT_MIN; 0; 1].
Proof.
  assert (Forall nonneg_int IntegersAscending.arr) as Harr by nonneg_ints.
  split_and!; try done.
  - intros a b. apply int_sub_sgn.
  - intros a b Ha Hb. by apply int_sub_sgn.
  - intros a b Ha Hb.
    pose proof (nonneg_int_diff _ a b Harr Ha Hb).
    pose proof (nonneg_int_diff _ b a Harr Hb Ha).
    split_and!; [done|by apply int_sub_exact..].
  - apply ascending_total_order. intros x y Hx Hy.
    by apply int_sub_exact, (nonneg_int_diff IntegersAscending.arr).
  - apply descending_total_order. intros x y Hx Hy.
    by apply int_sub_exact, (nonneg_int_diff IntegersAscending.arr).
  - intros Ho. destruct (Ho INT_MIN 0 1) as [_ Ht]; [by repeat constructor..|].
    vm_compute in Ht. by apply Ht.
  - intros Ho. destruct (Ho 1 0 INT_MIN) as [_ Ht]; [by repeat constructor..|].
    vm_compute in Ht. by apply Ht.
Qed.

End demo_facts.

(** ** The theorems at sample inputs *)

Section samples.
Import CInt Mem StrdupFunction StrdupSpec CArray Stdio Qsort DemoSpec Samples.

(** The string ["hi"] with two bytes left in the allocator: whatever the
    loop budget, [my_strdup] does not return a non-null pointer; with a
    budget of three iterations it returns the null pointer. *)
Lemma my_strdup_null_for_a_string :
  is_null (Ptr 0 0) = false ∧
  string_at hi_mem_short (Ptr 0 0) = Some [104; 105] ∧
  result (my_strdup 3 (Ptr 0 0) hi_mem_short) = Some NULL ∧
  ∀ fuel, ¬ ∃ nb ofs m',
    my_strdup fuel (Ptr 0 0) hi_mem_short = Done (Ptr nb ofs) m'.
Proof.
  split_and!; [done..|]. intros fuel (nb & ofs & m' & Hrun).
  destruct (decide (2 < fuel)%nat) as [Hfuel|Hfuel].
  - rewrite (my_strdup_refused hi_mem_short 0 0 [104; 105]) in Hrun;
      [done|done|by vm_compute..|done].
  - destruct fuel as [|[|[|fuel]]]; [done..|lia].
Qed.

Lemma my_strdup_duplicates_witness :
  string_at hi_mem (Ptr 0 0) = Some [104; 105] ∧
  ∃ nb m',
    my_strdup 4 (Ptr 0 0) hi_mem = Done (Ptr nb 0) m' ∧
    string_at m' (Ptr nb 0) = Some [104; 105] ∧
    nb ≠ 0%nat.
Proof.
  split; [reflexivity|].
  destruct (my_strdup_duplicates hi_mem 0 0 [104; 105] 4)
    as (nb & m' & Hrun & _ & Hcopy & _ & _ & Hnb & _);
    [reflexivity|by vm_compute|by vm_compute|simpl; lia|].
  by exists nb, m'.
Defined.

Lemma my_strdup_allocation_failure_witness :
  string_at hi_mem_short (Ptr 0 0) = Some [104; 105] ∧
  ∃ m',
    my_strdup 3 (Ptr 0 0) hi_mem_short = Done NULL m' ∧
    result (my_strdup 3 (Ptr 0 0) hi_mem_short)
    = result (my_strdup 3 NULL hi_mem_short) ∧
    blocks m' = blocks hi_mem_short ∧ avail m' = avail hi_mem_short.
Proof.
  split; [reflexivity|].
  apply (proj2 my_strdup_allocation_failure 3%nat 0%nat 0 hi_mem_short [104; 105]);
    [reflexivity|by vm_compute|by vm_compute|simpl; lia].
Defined.

Lemma my_strdup_preserves_source_witness :
  my_strdup 4 (Ptr 0 0) hi_mem
  = Done (Ptr 1 0) (copied_state hi_mem 0 0 [104; 105]) ∧
  string_at (copied_state hi_mem 0 0 [104; 105]) (Ptr 0 0) = Some [104; 105].
Proof.
  split; [reflexivity|].
  apply (proj1 my_strdup_preserves_source 4%nat 0%nat 0 hi_mem (Ptr 1 0));
    reflexivity.
Defined.

Lemma demonstrations_in_order_witness :
  ∃ l, l ≡ₚ IntegersAscending.arr ∧
    IntegersAscending.main reference_qsort
    = Some (printf_nl (foldl (λ out x, printf_d x out) EmptyString l), 0) ∧
    adjacent_le IntegersAscending.cmp_int l ∧
    Sorted Z.le l.
Proof.
  exact (proj1 (demonstrations_in_order reference_qsort reference_qsort_spec)).
Defined.

Lemma demonstrations_permute_witness :
  ∃ l, l ≡ₚ IntegersAscending.arr ∧
    IntegersAscending.main reference_qsort
    = Some (printf_nl (foldl (λ out x, printf_d x out) EmptyString l), 0).
Proof.
  exact (proj1 (demonstrations_permute reference_qsort reference_qsort_spec)).
Defined.

Lemma integers_ascending_output_witness :
  IntegersAscending.main reference_qsort
  = Some (String.append "1 2 5 5 6 9 " newline, 0).
Proof.
  exact (proj2 (integers_ascending_output reference_qsort
                  reference_qsort_spec)).
Defined.

Lemma characters_ascending_output_witness :
  CharactersAscending.main reference_qsort
  = Some (String "000"%char (String.append " a a l m s " newline), 0).
Proof.
  apply (characters_ascending_output reference_qsort reference_qsort_spec).
Defined.

Lemma demonstrations_idempotent_witness :
  resort_stable reference_qsort IntegersAscending.cmp_int printf_d
    IntegersAscending.arr IntegersAscending.n.
Proof.
  exact (proj1 (demonstrations_idempotent reference_qsort
                  reference_qsort_spec)).
Defined.

Lemma subtraction_comparators_witness :
  in_int 5 ∧ in_int 2 ∧
  (Z.sgn (IntegersAscending.cmp_int 5 2) = Z.sgn (5 - 2) ↔ in_int (5 - 2)).
Proof.
  split_and!; [by vm_compute..|].
  apply (proj1 subtraction_comparators 5 2); by vm_compute.
Defined.

End samples.

(** ** When [my_strdup] returns *)

Section strdup_domain.
Import CInt Mem StrdupFunction StrdupSpec Accounting.

Lemma bind_Undefined {A B} (c : M A) (f : A → M B) m m' :
  c m = Undefined m' → (c ≫= f) m = Undefined m'.
Proof. intros Hc. unfold mbind, M_bind. by rewrite Hc. Qed.

(** A larger loop budget does not change what a loop returns. *)
Lemma strlen_loop_mono fuel : ∀ fuel' s k m r m',
  (fuel ≤ fuel')%nat →
  strlen_loop fuel s k m = Done r m' → strlen_loop fuel' s k m = Done r m'.
Proof.
  induction fuel as [|fuel IH]; intros [|fuel'] s k m r m' Hle; simpl;
    try done; try lia.
  intros (c & m1 & Hload & Hrest)%bind_Done_inv.
  rewrite (bind_Done _ _ _ _ _ Hload). case_decide; [|done].
  apply (IH fuel'); [lia|done].
Qed.

Lemma copy_loop_mono fuel : ∀ fuel' s copy len i m m',
  (fuel ≤ fuel')%nat →
  copy_loop fuel s copy len i m = Done tt m' →
  copy_loop fuel' s copy len i m = Done tt m'.
Proof.
  induction fuel as [|fuel IH]; intros [|fuel'] s copy len i m m' Hle; simpl;
    try done; try lia.
  case_decide; [|done].
  intros (c & m1 & Hload & Hrest)%bind_Done_inv.
  apply bind_Done_inv in Hrest as ([] & m2 & Hstore & Hrest).
  rewrite (bind_Done _ _ _ _ _ Hload), (bind_Done _ _ _ _ _ Hstore).
  apply (IH fuel'); [lia|done].
Qed.

Lemma my_strdup_mono fuel fuel' s m r m' :
  (fuel ≤ fuel')%nat →
  my_strdup fuel s m = Done r m' → my_strdup fuel' s m = Done r m'.
Proof.
  intros Hle. unfold my_strdup. destruct (is_null s); [done|].
  intros (len & m1 & Hscan & Hrest)%bind_Done_inv.
  apply bind_Done_inv in Hrest as (copy & m2 & Halloc & Hrest).
  rewrite (bind_Done _ _ _ _ _ (strlen_loop_mono _ _ _ _ _ _ _ Hle Hscan)).
  rewrite (bind_Done _ _ _ _ _ Halloc).
  destruct (is_null copy); [done|].
  apply bind_Done_inv in Hrest as ([] & m3 & Hcopy & Hret).
  by rewrite (bind_Done _ _ _ _ _ (copy_loop_mono _ _ _ _ _ _ _ _ Hle Hcopy)).
Qed.

(** A scan that returns has started inside a block. *)
Lemma strlen_loop_Done_block fuel b ofs k m r m' :
  strlen_loop fuel (Ptr b ofs) k m = Done r m' →
  0 ≤ ofs + k ∧ ∃ blk, blocks m !! b = Some blk.
Proof.
  destruct fuel as [|fuel]; simpl; [done|].
  intros (c & m1 & Hload & _)%bind_Done_inv.
  unfold load, cell_at in Hload. case_decide; [|done].
  destruct (blocks m !! b) as [blk|]; [eauto|done].
Qed.

(** A scan that returns inside a block no longer than [INT_MAX] has found
    the terminator of a string, and returns the index of the terminator. *)
Lemma strlen_loop_Done_string b ofs blk fuel : ∀ k m r m',
  0 ≤ ofs → 0 ≤ k →
  blocks m !! b = Some blk → Z.of_nat (length blk) ≤ INT_MAX →
  strlen_loop fuel (Ptr b ofs) k m = Done r m' →
  ∃ bytes, scan_cells (drop (Z.to_nat (ofs + k)) blk) = Some bytes ∧
           r = k + Z.of_nat (length bytes).
Proof.
  induction fuel as [|fuel IH]; intros k m r m' Hofs Hk Hb Hmax; simpl; [done|].
  intros (c & m1 & Hload & Hrest)%bind_Done_inv.
  pose proof (load_inv _ _ _ _ _ Hload) as ->.
  unfold load in Hload. rewrite (cell_at_Some _ _ _ blk) in Hload by (done || lia).
  destruct (blk !! Z.to_nat (ofs + k)) as [[c'|]|] eqn:Hcell; [|done..].
  injection Hload as ->. pose proof (lookup_lt_Some _ _ _ Hcell) as Hlt.
  rewrite (drop_S _ _ _ Hcell). csimpl. case_decide as Hc.
  - rewrite decide_False by done. rewrite int_add_succ in Hrest by lia.
    apply IH in Hrest as (bytes & Hs & ->); [|done|lia|done..].
    replace (Z.to_nat (ofs + (k + 1))) with (S (Z.to_nat (ofs + k))) in Hs by lia.
    rewrite Hs. exists (c :: bytes). split; [done|]. simpl length. lia.
  - injection Hrest as <- <-. rewrite decide_True by done.
    exists []. split; [done|]. simpl. lia.
Qed.

(** A scan that meets no terminator before the end of the block reads
    every byte up to the end, then reads outside the block. *)
Lemma strlen_loop_runs_off b ofs blk bytes : ∀ k fuel m,
  0 ≤ ofs → 0 ≤ k →
  blocks m !! b = Some blk → Z.of_nat (length blk) ≤ INT_MAX →
  drop (Z.to_nat (ofs + k)) blk = Some <$> bytes →
  Forall (λ c, c ≠ 0) bytes →
  (length bytes < fuel)%nat →
  strlen_loop fuel (Ptr b ofs) k m
  = Undefined (logs (scan_events b ofs (Z.to_nat k) (length bytes)) m).
Proof.
  induction bytes as [|c bytes IH]; intros k [|fuel] m Hofs Hk Hb Hmax Hd Hnz Hfuel;
    try (simpl in Hfuel; lia); simpl.
  - apply bind_Undefined. unfold load.
    rewrite (cell_at_Some _ _ _ blk) by (done || lia).
    assert (blk !! Z.to_nat (ofs + k) = None) as ->.
    { apply lookup_ge_None. apply (f_equal length) in Hd.
      rewrite length_drop in Hd. simpl in Hd. lia. }
    unfold logs, scan_events. simpl. rewrite app_nil_r. by destruct m.
  - assert (blk !! Z.to_nat (ofs + k) = Some (Some c)) as Hcell.
    { rewrite <- (Nat.add_0_r (Z.to_nat (ofs + k))), <- lookup_drop. by rewrite Hd. }
    pose proof (lookup_lt_Some _ _ _ Hcell) as Hlt.
    rewrite (drop_S _ _ _ Hcell) in Hd. injection Hd as Hd.
    inversion_clear Hnz as [|?? Hc Hnz'].
    erewrite bind_Done; last first.
    { unfold load. rewrite (cell_at_Some _ _ _ blk) by (done || lia).
      by rewrite Hcell. }
    rewrite decide_True by done. rewrite int_add_succ by lia.
    rewrite (IH (k + 1)); [|done|lia|done|done| |done|simpl in Hfuel; lia].
    + rewrite logs_log. unfold scan_events. csimpl.
      rewrite Z2Nat.id by lia.
      by replace (Z.to_nat (k + 1)) with (S (Z.to_nat k)) by lia.
    + by replace (Z.to_nat (ofs + (k + 1))) with (S (Z.to_nat (ofs + k))) by lia.
Qed.

End strdup_domain.

(** ** Storage, cost and domain of [my_strdup] *)

Section strdup_more.
Import CInt Mem StrdupFunction StrdupSpec Accounting Samples MoreSamples.

Lemma count_events_app kind evs1 evs2 :
  count_events kind (evs1 ++ evs2)
  = (count_events kind evs1 + count_events kind evs2)%nat.
Proof. induction evs1 as [|e evs1 IH]; simpl; [done|]. rewrite IH. lia. Qed.

Lemma count_scan_events b ofs k len :
  count_events is_load (scan_events b ofs k len) = len ∧
  count_events is_store (scan_events b ofs k len) = 0%nat ∧
  count_events is_alloc (scan_events b ofs k len) = 0%nat.
Proof.
  unfold scan_events. revert k.
  induction len as [|len IH]; intros k; csimpl; [done|].
  destruct (IH (S k)) as (-> & -> & ->). done.
Qed.

Lemma count_copy_events b ofs nb cs : ∀ i,
  count_events is_load (copy_events b ofs nb i cs) = length cs ∧
  count_events is_store (copy_events b ofs nb i cs) = length cs ∧
  count_events is_alloc (copy_events b ofs nb i cs) = 0%nat.
Proof.
  induction cs as [|c cs IH]; intros i; simpl; [done|].
  destruct (IH (i + 1)) as (-> & -> & ->). done.
Qed.

Lemma scan_cells_length cells bytes :
  scan_cells cells = Some bytes → (length bytes < length cells)%nat.
Proof.
  intros (_ & rest & ->)%scan_cells_layout.
  rewrite length_app, length_fmap, length_app. simpl. lia.
Qed.

(** X1: the copy of a string of [length] bytes occupies one new block of
    exactly [length + 1] bytes, all of them written: the allocator loses
    exactly [length + 1] bytes, and the indices of the copy that can be
    accessed are [0 .. length]. *)
Theorem my_strdup_storage m b ofs bytes fuel :
  string_at m (Ptr b ofs) = Some bytes →
  Z.of_nat (length bytes) < INT_MAX →
  Z.of_nat (length bytes) + 1 ≤ avail m →
  (length bytes + 1 < fuel)%nat →
  ∃ m',
    my_strdup fuel (Ptr b ofs) m = Done (Ptr (length (blocks m)) 0) m' ∧
    blocks m' = blocks m ++ [Some <$> (bytes ++ [0])] ∧
    avail m' = avail m - (Z.of_nat (length bytes) + 1) ∧
    (∀ i, is_Some (cell_at m' (length (blocks m)) i)
          ↔ 0 ≤ i ≤ Z.of_nat (length bytes)).
Proof.
  intros Hs Hmax Havail Hfuel. exists (copied_state m b ofs bytes).
  split_and!; [by apply my_strdup_success|done|done|].
  intros i. unfold cell_at. case_decide as Hi.
  - rewrite copied_state_new_block. simpl.
    rewrite lookup_lt_is_Some, length_fmap, length_app. simpl. lia.
  - split; [by intros [? ?]|lia].
Qed.

(** X2: a call on a string of [length] bytes makes one allocation
    request. When the request is refused it has read [length + 1] bytes
    and written none; when it is granted it has read [2 * (length + 1)]
    bytes and written [length + 1]. *)
Theorem my_strdup_cost m b ofs bytes fuel :
  string_at m (Ptr b ofs) = Some bytes →
  Z.of_nat (length bytes) < INT_MAX →
  (length bytes + 1 < fuel)%nat →
  ∃ r m' evs,
    my_strdup fuel (Ptr b ofs) m = Done r m' ∧
    trace m' = trace m ++ evs ∧
    count_events is_alloc evs = 1%nat ∧
    count_events is_load evs
    = (if is_null r then S (length bytes) else 2 * S (length bytes))%nat ∧
    count_events is_store evs
    = (if is_null r then 0 else S (length bytes))%nat.
Proof.
  intros Hs Hmax Hfuel.
  pose proof (count_scan_events b ofs 0 (S (length bytes))) as (Hl1 & Hs1 & Ha1).
  destruct (decide (Z.of_nat (length bytes) + 1 ≤ avail m)) as [Havail|Havail].
  - pose proof (count_copy_events b ofs (length (blocks m)) (bytes ++ [0]) 0)
      as (Hl2 & Hs2 & Ha2).
    rewrite length_app in Hl2, Hs2. simpl in Hl2, Hs2.
    eexists _, (copied_state m b ofs bytes), _.
    split_and!; [by apply my_strdup_success|reflexivity|..];
      rewrite count_events_app; cbn [count_events is_alloc is_load is_store is_null];
      lia.
  - eexists _, _, _.
    split_and!; [apply my_strdup_refused; [done|lia| |lia]|reflexivity|..].
    + rewrite int_add_succ by lia.
      rewrite to_size_t_id by (unfold SIZE_MAX, INT_MAX in *; lia). lia.
    + rewrite count_events_app. cbn [count_events is_alloc]. lia.
    + rewrite count_events_app. cbn [count_events is_load is_null]. lia.
    + rewrite count_events_app. cbn [count_events is_store is_null]. lia.
Qed.

(** X3: in a state whose blocks are no longer than [INT_MAX], a call of
    [my_strdup] on a non-null pointer returns only if the pointer
    designates a terminated string. It then returns the null pointer only
    when the allocator lacks [length + 1] bytes, leaving the blocks as they
    were, and otherwise a pointer to a new block that holds the string. *)
Theorem my_strdup_returns_only_for_strings fuel b ofs m r m' :
  (∀ blk, blocks m !! b = Some blk → Z.of_nat (length blk) ≤ INT_MAX) →
  my_strdup fuel (Ptr b ofs) m = Done r m' →
  ∃ bytes,
    string_at m (Ptr b ofs) = Some bytes ∧
    ((r = NULL ∧ avail m < Z.of_nat (length bytes) + 1 ∧
      blocks m' = blocks m) ∨
     (r = Ptr (length (blocks m)) 0 ∧
      Z.of_nat (length bytes) + 1 ≤ avail m ∧
      string_at m' r = Some bytes)).
Proof.
  intros Hbound Hrun. pose proof Hrun as Hrun0.
  unfold my_strdup in Hrun0. cbn [is_null] in Hrun0.
  apply bind_Done_inv in Hrun0 as (len & m1 & Hscan & _).
  destruct (strlen_loop_Done_block _ _ _ _ _ _ _ Hscan) as (Hofs & blk & Hb).
  specialize (Hbound blk Hb).
  destruct (strlen_loop_Done_string b ofs blk fuel 0 m len m1) as (bytes & Hcells & _);
    [lia|done|done|done|done|].
  rewrite Z.add_0_r in Hcells.
  assert (string_at m (Ptr b ofs) = Some bytes) as Hs.
  { unfold string_at. rewrite decide_True by lia. by rewrite Hb. }
  pose proof (scan_cells_length _ _ Hcells) as Hlen. rewrite length_drop in Hlen.
  apply (my_strdup_mono fuel (fuel `max` (length bytes + 2))) in Hrun; [|lia].
  exists bytes. split; [done|].
  destruct (decide (Z.of_nat (length bytes) + 1 ≤ avail m)) as [Havail|Havail].
  - right. rewrite (my_strdup_success m b ofs bytes) in Hrun by (done || lia).
    injection Hrun as <- <-. split_and!; [done..|].
    destruct (string_at_holds _ _ _ _ Hs) as (_ & Hnz & _).
    apply holds_string_at; [done|done|apply copied_state_holds].
  - left. rewrite (my_strdup_refused m b ofs bytes) in Hrun; [|done|lia| |lia].
    + injection Hrun as <- <-. split_and!; [done|lia|done].
    + rewrite int_add_succ by lia.
      rewrite to_size_t_id by (unfold SIZE_MAX, INT_MAX in *; lia). lia.
Qed.

(** X4: a buffer without terminator. When every byte from the pointer to
    the end of its block is written and is not ['\0'] (the pointer may
    also be one past the end), in a block no longer than [INT_MAX], the
    call has undefined behaviour in the length scan: the scan has read
    each of those bytes once, in order, and the next read is outside the
    block. At that point nothing but the bytes of that block has been
    read, nothing has been allocated and nothing has been written. *)
Theorem my_strdup_runs_off_unterminated fuel b ofs m blk bytes :
  blocks m !! b = Some blk →
  0 ≤ ofs →
  drop (Z.to_nat ofs) blk = Some <$> bytes →
  Forall (λ c, c ≠ 0) bytes →
  Z.of_nat (length blk) ≤ INT_MAX →
  (length bytes < fuel)%nat →
  my_strdup fuel (Ptr b ofs) m
  = Undefined (logs (scan_events b ofs 0 (length bytes)) m) ∧
  strlen_loop fuel (Ptr b ofs) 0 m
  = Undefined (logs (scan_events b ofs 0 (length bytes)) m) ∧
  cell_at m b (ofs + Z.of_nat (length bytes)) = None ∧
  count_events is_load (scan_events b ofs 0 (length bytes)) = length bytes ∧
  count_events is_alloc (scan_events b ofs 0 (length bytes)) = 0%nat ∧
  count_events is_store (scan_events b ofs 0 (length bytes)) = 0%nat.
Proof.
  intros Hb Hofs Hd Hnz Hmax Hfuel.
  assert (strlen_loop fuel (Ptr b ofs) 0 m
          = Undefined (logs (scan_events b ofs 0 (length bytes)) m)) as Hscan.
  { apply (strlen_loop_runs_off b ofs blk bytes 0); try done.
    by rewrite Z.add_0_r. }
  pose proof (count_scan_events b ofs 0 (length bytes)) as (Hl & Hs & Ha).
  split_and!; [|done| |done..].
  - unfold my_strdup. cbn [is_null]. by apply bind_Undefined.
  - rewrite (cell_at_Some _ _ _ blk) by (done || lia).
    apply lookup_ge_None. apply (f_equal length) in Hd.
    rewrite length_drop, length_fmap in Hd. lia.
Qed.

(** X5: duplicating a duplicate. With room for two copies, a call on a
    string followed by a call on the pointer it returned gives two new
    blocks; afterwards the source and both copies hold the same string,
    in three different blocks, and the allocator has lost
    [2 * (length + 1)] bytes. *)
Theorem my_strdup_twice m b ofs bytes fuel :
  string_at m (Ptr b ofs) = Some bytes →
  Z.of_nat (length bytes) < INT_MAX →
  2 * (Z.of_nat (length bytes) + 1) ≤ avail m →
  (length bytes + 1 < fuel)%nat →
  ∃ m1 m2,
    let copy1 := Ptr (length (blocks m)) 0 in
    let copy2 := Ptr (S (length (blocks m))) 0 in
    my_strdup fuel (Ptr b ofs) m = Done copy1 m1 ∧
    my_strdup fuel copy1 m1 = Done copy2 m2 ∧
    (b < length (blocks m))%nat ∧
    string_at m2 (Ptr b ofs) = Some bytes ∧
    string_at m2 copy1 = Some bytes ∧
    string_at m2 copy2 = Some bytes ∧
    avail m2 = avail m - 2 * (Z.of_nat (length bytes) + 1).
Proof.
  intros Hs Hmax Havail Hfuel.
  pose proof (string_at_block _ _ _ _ Hs) as Hb.
  destruct (string_at_holds _ _ _ _ Hs) as (Hofs & Hnz & _).
  set (m1 := copied_state m b ofs bytes).
  assert (string_at m1 (Ptr (length (blocks m)) 0) = Some bytes) as Hs1.
  { apply holds_string_at; [done|done|apply copied_state_holds]. }
  assert (length (blocks m1) = S (length (blocks m))) as Hlen1.
  { unfold m1. simpl. rewrite length_app. simpl. lia. }
  exists m1, (copied_state m1 (length (blocks m)) 0 bytes).
  split_and!.
  - apply my_strdup_success; [done|done|lia|done].
  - rewrite <- Hlen1. apply my_strdup_success; [done|done|simpl; lia|done].
  - done.
  - rewrite <- Hs.
    transitivity (string_at m1 (Ptr b ofs)); apply string_at_same_block.
    + apply copied_state_old_block. lia.
    + by apply copied_state_old_block.
  - rewrite <- Hs1. apply string_at_same_block, copied_state_old_block. lia.
  - rewrite <- Hlen1. apply holds_string_at; [done|done|apply copied_state_holds].
  - simpl. lia.
Qed.

Lemma my_strdup_storage_witness :
  ∃ m',
    my_strdup 4 (Ptr 0 0) hi_mem = Done (Ptr 1 0) m' ∧
    blocks m' = blocks hi_mem ++ [Some <$> ([104; 105] ++ [0])] ∧
    avail m' = 10 - (2 + 1) ∧
    (∀ i, is_Some (cell_at m' 1 i) ↔ 0 ≤ i ≤ 2).
Proof.
  apply (my_strdup_storage hi_mem 0 0 [104; 105] 4);
    [reflexivity|by vm_compute|by vm_compute|simpl; lia].
Defined.

Lemma my_strdup_cost_witness :
  ∃ r m' evs,
    my_strdup 4 (Ptr 0 0) hi_mem = Done r m' ∧
    trace m' = trace hi_mem ++ evs ∧
    count_events is_alloc evs = 1%nat ∧
    count_events is_load evs = (if is_null r then 3 else 6)%nat ∧
    count_events is_store evs = (if is_null r then 0 else 3)%nat.
Proof.
  apply (my_strdup_cost hi_mem 0 0 [104; 105] 4);
    [reflexivity|by vm_compute|simpl; lia].
Defined.

Lemma my_strdup_returns_only_for_strings_witness :
  my_strdup 3 (Ptr 0 0) hi_mem_short
  = Done NULL (refused_state hi_mem_short 0 0 [104; 105] 3) ∧
  ∃ bytes, string_at hi_mem_short (Ptr 0 0) = Some bytes.
Proof.
  split; [reflexivity|].
  destruct (my_strdup_returns_only_for_strings 3 0 0 hi_mem_short NULL
              (refused_state hi_mem_short 0 0 [104; 105] 3))
    as (bytes & Hs & _).
  - intros blk [= <-]. by vm_compute.
  - reflexivity.
  - by exists bytes.
Defined.

Lemma my_strdup_runs_off_unterminated_witness :
  my_strdup 3 (Ptr 0 0) unterminated_mem
  = Undefined (logs [EvLoad 0 0; EvLoad 0 1] unterminated_mem) ∧
  cell_at unterminated_mem 0 2 = None.
Proof.
  destruct (my_strdup_runs_off_unterminated 3 0 0 unterminated_mem
              [Some 104; Some 105] [104; 105]) as (Hrun & _ & Hcell & _);
    [reflexivity|lia|reflexivity|repeat constructor; lia|by vm_compute|simpl; lia|].
  split; [exact Hrun|exact Hcell].
Defined.

Lemma my_strdup_twice_witness :
  ∃ m1 m2,
    my_strdup 4 (Ptr 0 0) hi_mem = Done (Ptr 1 0) m1 ∧
    my_strdup 4 (Ptr 1 0) m1 = Done (Ptr 2 0) m2 ∧
    (0 < 1)%nat ∧
    string_at m2 (Ptr 0 0) = Some [104; 105] ∧
    string_at m2 (Ptr 1 0) = Some [104; 105] ∧
    string_at m2 (Ptr 2 0) = Some [104; 105] ∧
    avail m2 = 10 - 2 * (2 + 1).
Proof.
  apply (my_strdup_twice hi_mem 0 0 [104; 105] 4);
    [reflexivity|by vm_compute|by vm_compute|simpl; lia].
Defined.

End strdup_more.

(** ** The comparators and [qsort] on arbitrary arrays *)

Section comparators_more.
Import CInt CArray Stdio Qsort DemoSpec Accounting.

Lemma int_sub_zero a b : in_int a → in_int b → int_sub a b = 0 ↔ a = b.
Proof.
  intros Ha Hb. split.
  - intros Hz. unfold in_int, INT_MIN, INT_MAX in *.
    destruct (decide (a - b < - 2 ^ 31)) as [Hlow|Hlow].
    { unfold int_sub in Hz. rewrite wrap_int_low in Hz
        by (unfold INT_MIN; lia). lia. }
    destruct (decide (2 ^ 31 - 1 < a - b)) as [Hhigh|Hhigh].
    { unfold int_sub in Hz. rewrite wrap_int_high in Hz
        by (unfold INT_MAX; lia). lia. }
    rewrite int_sub_exact in Hz by (unfold in_int, INT_MIN, INT_MAX; lia). lia.
  - intros ->. rewrite int_sub_exact; unfold in_int, INT_MIN, INT_MAX; lia.
Qed.

Lemma is_char_differences_fit l : Forall is_char l → differences_fit l.
Proof.
  intros Hl x y Hx Hy. rewrite Forall_forall in Hl.
  pose proof (Hl x Hx). pose proof (Hl y Hy).
  unfold is_char, in_int, INT_MIN, INT_MAX in *. lia.
Qed.

(** Sorting a whole array under a comparator that is a total order on it
    gives a rearrangement in the order of the comparator. *)
Lemma qsort_whole qsort arr compar :
  QsortSpec qsort → total_order_on compar arr →
  qsort arr (Z.of_nat (length arr)) compar ≡ₚ arr ∧
  sorted_by compar (qsort arr (Z.of_nat (length arr)) compar).
Proof.
  intros Hq Ho.
  destruct (Hq arr (Z.of_nat (length arr)) compar) as (sorted & -> & Hp & Hs).
  - lia.
  - by rewrite Nat2Z.id, firstn_all.
  - rewrite Nat2Z.id, firstn_all in Hp. by rewrite Nat2Z.id, drop_all, app_nil_r.
Qed.

Lemma qsort_difference_ascending qsort arr compar :
  QsortSpec qsort → differences_fit arr →
  (∀ a b, compar a b = int_sub a b) →
  qsort arr (Z.of_nat (length arr)) compar ≡ₚ arr ∧
  Sorted Z.le (qsort arr (Z.of_nat (length arr)) compar).
Proof.
  intros Hq Hfit Hc.
  assert (∀ x y, x ∈ arr → y ∈ arr → compar x y = x - y) as He.
  { intros x y Hx Hy. rewrite Hc. by apply int_sub_exact, Hfit. }
  destruct (qsort_whole qsort arr compar Hq) as [Hp Hs];
    [by apply ascending_total_order|].
  split; [done|]. eapply Sorted_impl_elem; [|exact Hs].
  intros x y Hx Hy. simpl. rewrite He by (by rewrite <- Hp). lia.
Qed.

Lemma qsort_difference_descending qsort arr compar :
  QsortSpec qsort → differences_fit arr →
  (∀ a b, compar a b = int_sub b a) →
  qsort arr (Z.of_nat (length arr)) compar ≡ₚ arr ∧
  Sorted (flip Z.le) (qsort arr (Z.of_nat (length arr)) compar).
Proof.
  intros Hq Hfit Hc.
  assert (∀ x y, x ∈ arr → y ∈ arr → compar x y = y - x) as He.
  { intros x y Hx Hy. rewrite Hc. by apply int_sub_exact, Hfit. }
  destruct (qsort_whole qsort arr compar Hq) as [Hp Hs];
    [by apply descending_total_order|].
  split; [done|]. eapply Sorted_impl_elem; [|exact Hs].
  intros x y Hx Hy. simpl. rewrite He by (by rewrite <- Hp). unfold flip. lia.
Qed.

Lemma flip_le_unique l1 l2 :
  Sorted (flip Z.le) l1 → Sorted (flip Z.le) l2 → l1 ≡ₚ l2 → l1 = l2.
Proof.
  assert (Transitive (flip Z.le)) by (intros x y z; unfold flip; lia).
  assert (AntiSymm (=) (flip Z.le)) by (intros x y; unfold flip; lia).
  by apply Sorted_unique.
Qed.

(** X6: on [char] operands the subtractions of [cmp_char_asc] and
    [cmp_char_desc] never wrap: the comparators return the exact
    difference, and are total orders on every array of [char]. *)
Theorem char_comparators_exact l :
  Forall is_char l →
  (∀ a b, a ∈ l → b ∈ l →
     CharactersAscending.cmp_char_asc a b = a - b ∧
     CharactersDescending.cmp_char_desc a b = b - a) ∧
  total_order_on CharactersAscending.cmp_char_asc l ∧
  total_order_on CharactersDescending.cmp_char_desc l.
Proof.
  intros Hl. pose proof (is_char_differences_fit l Hl) as Hfit.
  assert (∀ a b, a ∈ l → b ∈ l →
            CharactersAscending.cmp_char_asc a b = a - b ∧
            CharactersDescending.cmp_char_desc a b = b - a) as He.
  { intros a b Ha Hb. split; apply int_sub_exact; by apply Hfit. }
  split_and!; [done| |].
  - apply ascending_total_order. intros x y Hx Hy. by apply He.
  - apply descending_total_order. intros x y Hx Hy. by apply He.
Qed.

(** X7: on every [int] array whose elements differ by amounts that are
    [int]s, [qsort] with [cmp_int] leaves the values in increasing order
    and [qsort] with [cmp_int_desc] leaves them in decreasing order, each
    a rearrangement of the array. *)
Theorem qsort_integers_any_array qsort arr :
  QsortSpec qsort → differences_fit arr →
  (qsort arr (Z.of_nat (length arr)) IntegersAscending.cmp_int ≡ₚ arr ∧
   Sorted Z.le (qsort arr (Z.of_nat (length arr)) IntegersAscending.cmp_int)) ∧
  (qsort arr (Z.of_nat (length arr)) IntegersDescending.cmp_int_desc ≡ₚ arr ∧
   Sorted (flip Z.le)
     (qsort arr (Z.of_nat (length arr)) IntegersDescending.cmp_int_desc)).
Proof.
  intros Hq Hfit. split.
  - by apply qsort_difference_ascending.
  - by apply qsort_difference_descending.
Qed.

(** X8: on such an array the descending sort gives the ascending sort
    read backwards. *)
Theorem qsort_descending_is_reverse qsort arr :
  QsortSpec qsort → differences_fit arr →
  qsort arr (Z.of_nat (length arr)) IntegersDescending.cmp_int_desc
  = reverse (qsort arr (Z.of_nat (length arr)) IntegersAscending.cmp_int).
Proof.
  intros Hq Hfit.
  destruct (qsort_difference_ascending qsort arr IntegersAscending.cmp_int)
    as [Hpu Hsu]; [done..|].
  destruct (qsort_difference_descending qsort arr IntegersDescending.cmp_int_desc)
    as [Hpd Hsd]; [done..|].
  apply flip_le_unique; [done|by apply Sorted_reverse|].
  by rewrite reverse_Permutation, Hpd, Hpu.
Qed.

(** X9: on [int] operands [cmp_int] and [cmp_int_desc] return 0 exactly
    for equal values, also when the subtraction wraps. *)
Theorem int_comparators_zero a b :
  in_int a → in_int b →
  (IntegersAscending.cmp_int a b = 0 ↔ a = b) ∧
  (IntegersDescending.cmp_int_desc a b = 0 ↔ a = b).
Proof.
  intros Ha Hb. split.
  - by apply int_sub_zero.
  - unfold IntegersDescending.cmp_int_desc. rewrite int_sub_zero by done.
    split; by intros ->.
Qed.

(** X10: on every array of [char], without any condition on the values,
    [qsort] with [cmp_char_asc] leaves the values in increasing order and
    [qsort] with [cmp_char_desc] in decreasing order, each a rearrangement
    of the array. *)
Theorem qsort_characters_any_array qsort arr :
  QsortSpec qsort → Forall is_char arr →
  (qsort arr (Z.of_nat (length arr)) CharactersAscending.cmp_char_asc ≡ₚ arr ∧
   Sorted Z.le
     (qsort arr (Z.of_nat (length arr)) CharactersAscending.cmp_char_asc)) ∧
  (qsort arr (Z.of_nat (length arr)) CharactersDescending.cmp_char_desc ≡ₚ arr ∧
   Sorted (flip Z.le)
     (qsort arr (Z.of_nat (length arr)) CharactersDescending.cmp_char_desc)).
Proof.
  intros Hq Hl. pose proof (is_char_differences_fit arr Hl) as Hfit. split.
  - by apply qsort_difference_ascending.
  - by apply qsort_difference_descending.
Qed.

Lemma char_comparators_exact_witness :
  CharactersAscending.cmp_char_asc (-128) 127 = -128 - 127 ∧
  CharactersDescending.cmp_char_desc (-128) 127 = 127 - -128.
Proof.
  apply (proj1 (char_comparators_exact [-128; 127]
                  ltac:(repeat constructor; by vm_compute)));
    by repeat constructor.
Defined.

Lemma qsort_integers_any_array_witness :
  Sorted Z.le
    (reference_qsort [3; -7; 2147483000] 3 IntegersAscending.cmp_int).
Proof.
  apply (qsort_integers_any_array reference_qsort [3; -7; 2147483000]
           reference_qsort_spec).
  intros x y Hx Hy. unfold in_int, INT_MIN, INT_MAX.
  rewrite !elem_of_cons, elem_of_nil in Hx, Hy. lia.
Defined.

Lemma qsort_descending_is_reverse_witness :
  reference_qsort [3; -7; 2147483000] 3 IntegersDescending.cmp_int_desc
  = reverse (reference_qsort [3; -7; 2147483000] 3 IntegersAscending.cmp_int).
Proof.
  apply (qsort_descending_is_reverse reference_qsort [3; -7; 2147483000]
           reference_qsort_spec).
  intros x y Hx Hy. unfold in_int, INT_MIN, INT_MAX.
  rewrite !elem_of_cons, elem_of_nil in Hx, Hy. lia.
Defined.

Lemma int_comparators_zero_witness :
  IntegersAscending.cmp_int INT_MIN INT_MAX = 0 ↔ INT_MIN = INT_MAX.
Proof.
  apply (int_comparators_zero INT_MIN INT_MAX); by vm_compute.
Defined.

Lemma qsort_characters_any_array_witness :
  Sorted Z.le
    (reference_qsort [127; -128; 0] 3 CharactersAscending.cmp_char_asc).
Proof.
  apply (qsort_characters_any_array reference_qsort [127; -128; 0]
           reference_qsort_spec).
  repeat constructor; by vm_compute.
Defined.

End comparators_more.

(** ** The print loop and the remaining outputs *)

Section output_more.
Import CInt CArray Stdio Qsort DemoSpec Accounting.

(** The element count [sizeof(arr) / sizeof(arr[0])] of an array that an
    [int] can count. *)
Lemma element_count elt (a : list Z) :
  0 < elt → Z.of_nat (length a) ≤ INT_MAX →
  wrap_int (sizeof_array elt a / elt) = Z.of_nat (length a).
Proof.
  intros Helt Hlen. unfold sizeof_array. rewrite Z.div_mul by lia.
  apply wrap_int_id. unfold in_int, INT_MIN, INT_MAX in *. lia.
Qed.

Lemma print_steps (printf : Z → string → string) (arr : list Z) :
  ∀ cnt k (out : string),
  (k + cnt ≤ length arr)%nat →
  foldl (λ acc i, out ← acc; x ← arr !! Z.to_nat i; Some (printf x out))
    (Some out) ((λ i : nat, Z.of_nat i + 0) <$> seq k cnt)
  = Some (foldl (λ o x, printf x o) out (take cnt (drop k arr))).
Proof.
  induction cnt as [|cnt IH]; intros k out Hk; csimpl; [done|].
  destruct (lookup_lt_is_Some_2 arr k) as [x Hx]; [lia|].
  rewrite Z.add_0_r, Nat2Z.id, Hx. csimpl.
  rewrite IH by lia. by rewrite (drop_S _ _ _ Hx).
Qed.

Lemma print_after_undefined (printf : Z → string → string)
    (arr : list Z) (l : list Z) :
  foldl (λ acc i, out ← acc; x ← arr !! Z.to_nat i; Some (printf x out))
    (@None string) l = None.
Proof. induction l as [|i l IH]; simpl; done. Qed.

Lemma print_loop_prefix printf arr n out :
  n ≤ Z.of_nat (length arr) →
  print_loop printf arr n out
  = Some (foldl (λ o x, printf x o) out (take (Z.to_nat n) arr)).
Proof.
  intros Hn. unfold print_loop, seqZ. rewrite print_steps by lia. done.
Qed.

Lemma print_loop_overrun printf arr n out :
  Z.of_nat (length arr) < n → print_loop printf arr n out = None.
Proof.
  intros Hn. unfold print_loop, seqZ.
  replace (Z.to_nat n) with (length arr + S (Z.to_nat n - S (length arr)))%nat by lia.
  rewrite seq_app, fmap_app, foldl_app, print_steps by lia. csimpl.
  rewrite Z.add_0_r, Nat2Z.id.
  rewrite (proj2 (lookup_ge_None arr (length arr))) by lia. csimpl.
  apply print_after_undefined.
Qed.

(** X13: the print loop bounded by [n] prints the first [n] elements of
    the array, in order, after what was printed before, and nothing when
    [n] is not positive; with [n] above the number of elements it reads
    outside the array, which is undefined. *)
Theorem print_loop_bounds printf arr n out :
  (n ≤ Z.of_nat (length arr) →
   print_loop printf arr n out
   = Some (foldl (λ o x, printf x o) out (take (Z.to_nat n) arr))) ∧
  (Z.of_nat (length arr) < n → print_loop printf arr n out = None).
Proof.
  split; [apply print_loop_prefix|apply print_loop_overrun].
Qed.

(** X14: for every array that an [int] can count, the bound computed as
    [sizeof(arr) / sizeof(arr[0])] is the number of elements, so the loop
    prints every element once, in order, and never reads outside the
    array. *)
Theorem whole_array_is_printed printf arr elt out :
  0 < elt → Z.of_nat (length arr) ≤ INT_MAX →
  wrap_int (sizeof_array elt arr / elt) = Z.of_nat (length arr) ∧
  print_loop printf arr (wrap_int (sizeof_array elt arr / elt)) out
  = Some (foldl (λ o x, printf x o) out arr).
Proof.
  intros Helt Hlen. rewrite element_count by done. split; [done|].
  rewrite print_loop_prefix by lia.
  by rewrite Nat2Z.id, firstn_all.
Qed.






(** X11: the integer descending demonstration starts from the array
    [5, 2, 9, 1, 5, 6], writes the line ["9 6 5 5 2 1 "] followed by a
    newline, and exits with status 0. *)
Theorem integers_descending_output qsort :
  QsortSpec qsort →
  IntegersDescending.arr = [5; 2; 9; 1; 5; 6] ∧
  IntegersDescending.main qsort
  = Some (String.append "9 6 5 5 2 1 " newline, 0).
Proof.
  intros Hq. split; [done|]. unfold IntegersDescending.main.
  by rewrite integers_descending_sorted_arr.
Qed.

(** X12: the character descending demonstration starts from the five
    characters [z a q m b], no terminator among them, writes the line
    ["z q m b a "] followed by a newline, and exits with status 0. *)
Theorem characters_descending_output qsort :
  QsortSpec qsort →
  CharactersDescending.arr = [122; 97; 113; 109; 98] ∧
  CharactersDescending.n = 5 ∧
  CharactersDescending.main qsort
  = Some (String.append "z q m b a " newline, 0).
Proof.
  intros Hq. split_and!; [done|done|]. unfold CharactersDescending.main.
  by rewrite characters_descending_sorted_arr.
Qed.

Lemma print_loop_bounds_witness :
  print_loop printf_d [7; 8; 9] 2 "" = Some "7 8 "%string ∧
  print_loop printf_d [7; 8; 9] 4 "" = None.
Proof.
  split.
  - apply (proj1 (print_loop_bounds printf_d [7; 8; 9] 2 "")). simpl. lia.
  - apply (proj2 (print_loop_bounds printf_d [7; 8; 9] 4 "")). simpl. lia.
Defined.

Lemma whole_array_is_printed_witness :
  wrap_int (sizeof_array sizeof_int [7; 8; 9] / sizeof_int) = 3 ∧
  print_loop printf_d [7; 8; 9]
    (wrap_int (sizeof_array sizeof_int [7; 8; 9] / sizeof_int)) ""
  = Some "7 8 9 "%string.
Proof.
  apply (whole_array_is_printed printf_d [7; 8; 9] sizeof_int "");
    by vm_compute.
Defined.

Lemma integers_descending_output_witness :
  IntegersDescending.main reference_qsort
  = Some (String.append "9 6 5 5 2 1 " newline, 0).
Proof.
  exact (proj2 (integers_descending_output reference_qsort
                  reference_qsort_spec)).
Defined.

Lemma characters_descending_output_witness :
  CharactersDescending.main reference_qsort
  = Some (String.append "z q m b a " newline, 0).
Proof.
  apply (characters_descending_output reference_qsort reference_qsort_spec).
Defined.


End output_more.
